(** * Golftracker: the handicap engine of the round and user controllers

    A shallow embedding of [calculateScoreDifferential], [updateUserHandicap],
    [createRound], [createMultiPlayerRound], [deleteRound] (round controller)
    and [getHandicapHistory] (user controller).

    The handlers are stated over exact rationals in canonical form ([Qc]),
    so that equality of results is Leibniz equality; this decides what is
    read, selected and written.  The values that JavaScript computes are
    doubles: the numeric functions are embedded a second time over IEEE 754
    double precision ([Binary64]), and what depends on the value computed
    is stated there.  The document store is modelled as three finite maps,
    and every [dynamodb.send] may throw, as decided by the environment. *)

From Stdlib Require Import QArith Qcanon Qround ZArith Lia Lqa SpecFloat.
From stdpp Require Import base numbers list sorting gmap strings pretty.

Local Open Scope Qc_scope.

(** ** Numbers *)

Module Num.

Abbreviation number := Qc.

(** Integer and decimal literals of the source. *)
Definition int (z : Z) : number := Qc_of_Z z.
Definition dec (n : Z) (d : positive) : number := Q2Qc (n # d).

(** [Math.floor], its value as an integer. *)
Definition floorZ (x : number) : Z := Qfloor (this x).

(** [Math.round] (the nearest integer, a half goes up), [Math.max] and
    [Math.min]. *)
Definition Math_round (x : number) : number := int (floorZ (x + dec 1 2)).
Definition Math_max (a b : number) : number := if decide (a ≤ b) then b else a.
Definition Math_min (a b : number) : number := if decide (a ≤ b) then a else b.

(** [xs.reduce((sum, x) => sum + x, 0)]. *)
Definition sum (xs : list number) : number := foldl Qcplus (int 0) xs.

(** [xs.length] as a number. *)
Definition len {A} (xs : list A) : number := int (Z.of_nat (length xs)).

(** [xs.sort((a, b) => a - b)]: the stable ascending sort. *)
Definition sort_ascending (xs : list number) : list number := merge_sort Qcle xs.

(** [xs.slice(0, n)]. *)
Definition slice0 {A} (n : nat) (xs : list A) : list A := take n xs.

End Num.
Import Num.

(** ** The score differential *)

(** [numberOfHoles] has the default value 18: [None] is the omitted argument. *)
Definition calculateScoreDifferential
    (totalScore courseRating slopeRating : number)
    (numberOfHoles : option number) : number :=
  let numberOfHoles := default (int 18) numberOfHoles in
  let adjustedScore :=
    if decide (numberOfHoles = int 9) then totalScore * int 2 else totalScore in
  let adjustedRating :=
    if decide (numberOfHoles = int 9) then courseRating * int 2 else courseRating in
  ((adjustedScore - adjustedRating) * int 113) / slopeRating.

(** ** The handicap of [updateUserHandicap], as a function of the
    differentials of the rounds the query returned *)

Module Handicap.

(** The chain of comparisons on [rounds.length]. *)
Definition numberOfScoresToUse (length : nat) : nat :=
  if decide (20 ≤ length)%nat then 8%nat
  else if decide (19 ≤ length)%nat then 7%nat
  else if decide (16 ≤ length)%nat then 6%nat
  else if decide (12 ≤ length)%nat then 5%nat
  else if decide (9 ≤ length)%nat then 4%nat
  else if decide (6 ≤ length)%nat then 3%nat
  else if decide (3 ≤ length)%nat then 2%nat
  else 1%nat.

Definition sortedDifferentials (differentials : list number) : list number :=
  sort_ascending differentials.

Definition bestDifferentials (differentials : list number) : list number :=
  slice0 (numberOfScoresToUse (length differentials))
         (sortedDifferentials differentials).

Definition averageDifferential (differentials : list number) : number :=
  sum (bestDifferentials differentials) / len (bestDifferentials differentials).

Definition newHandicap (differentials : list number) : number :=
  Math_round (averageDifferential differentials * int 10) / int 10.

(** The value of [':handicap'] in the update: 54 without rounds, else the
    clamped [newHandicap].  This is the [computeHandicap] of the interface. *)
Definition computeHandicap (differentials : list number) : number :=
  if decide (length differentials = 0%nat)
  then int 54
  else Math_max (int 0) (Math_min (int 54) (newHandicap differentials)).

End Handicap.

(** ** The handicap of one entry of [getHandicapHistory] *)

Module History.

Definition countToUse (length : nat) : nat :=
  if decide (20 ≤ length)%nat then 8%nat
  else if decide (6 ≤ length)%nat
       then Z.to_nat (floorZ (int (Z.of_nat length) * dec 4 10))
  else if decide (3 ≤ length)%nat then 1%nat
  else 1%nat.

Definition sortedDiffs (currentDiffs : list number) : list number :=
  sort_ascending currentDiffs.

Definition bestDiffs (currentDiffs : list number) : list number :=
  slice0 (countToUse (length currentDiffs)) (sortedDiffs currentDiffs).

Definition avgDiff (currentDiffs : list number) : number :=
  sum (bestDiffs currentDiffs) / len (bestDiffs currentDiffs).

(** The variable [handicap] at the end of the loop body. *)
Definition handicap (currentDiffs : list number) : number :=
  if decide (3 ≤ length currentDiffs)%nat
  then Math_max (int 0) (Math_min (int 54) (avgDiff currentDiffs * dec 96 100))
  else int 54.

(** The [handicap] field pushed to [history]. *)
Definition entryHandicap (currentDiffs : list number) : number :=
  Math_round (handicap currentDiffs * int 10) / int 10.

End History.

(** ** The document store *)

Record Hole := { hole_par : number; hole_strokes : number }.

Record Round := {
  round_id : string;
  round_userId : string;
  round_courseId : string;
  round_courseName : string;
  round_teeColor : string;
  round_numberOfHoles : option number;
  round_date : string;
  round_players : list string;
  round_holes : list Hole;
  round_totalScore : number;
  round_totalPar : number;
  round_scoreDifferential : number;
  round_createdAt : string;
  round_updatedAt : string
}.

(** A user item; the profile attributes play no part here. *)
Record User := {
  user_handicap : number;
  user_updatedAt : string
}.

(** A course has a rating and a slope for every tee colour. *)
Record Course := {
  course_rating : string → number;
  course_slope : string → number
}.

Inductive Table := ROUNDS | USERS | COURSES.

(** A query on the index [userId-date-index]. *)
Record Query := {
  query_userId : string;
  query_date : option string;
  query_courseId : option string;
  ScanIndexForward : bool;
  Limit : option nat
}.

Inductive Command :=
  | GetCommand (table : Table) (key : string)
  | PutCommand (item : Round)
  | QueryCommand (q : Query)
  | UpdateCommand (key : string) (handicap : number) (updatedAt : string)
  | DeleteCommand (key : string).

Inductive Error := StorageError (c : Command).

Inductive LogLine :=
  | LogError (message : string) (error : Error)
  | LogHandicapUpdated (userId : string) (newHandicap : number) (rounds : nat).

Record World := {
  rounds_table : gmap string Round;
  users_table : gmap string User;
  courses_table : gmap string Course;
  log : list LogLine;
  uuids_drawn : nat
}.

(** What the handlers do not control: which commands the store rejects,
    the identifiers [uuidv4] draws and the clock. *)
Record Env := {
  throws : Command → bool;
  uuid : nat → string;
  now : string
}.

(** ** Promises: state passing with exceptions *)

Inductive Result (A : Type) :=
  | Ok (a : A)
  | Throw (e : Error).
Arguments Ok {A} a.
Arguments Throw {A} e.

Definition M (A : Type) : Type := World → World * Result A.

Definition ret {A} (a : A) : M A := λ w, (w, Ok a).
Definition throw {A} (e : Error) : M A := λ w, (w, Throw e).
Definition bind {A B} (m : M A) (k : A → M B) : M B :=
  λ w, match m w with
       | (w', Ok a) => k a w'
       | (w', Throw e) => (w', Throw e)
       end.
Definition try_catch {A} (m : M A) (handler : Error → M A) : M A :=
  λ w, match m w with
       | (w', Ok a) => (w', Ok a)
       | (w', Throw e) => handler e w'
       end.

Notation "'const' x ':=' 'await' m ;; k" := (bind m (λ x, k))
  (at level 10, x name, m at level 99, k at level 200).
Notation "'await' m ;; k" := (bind m (λ _, k))
  (at level 10, m at level 99, k at level 200).

(** [Promise.all]: every promise of the list runs; the first rejection, if
    any, is the rejection of the whole. *)
Fixpoint promise_all {A} (ps : list (M A)) : M (list A) :=
  match ps with
  | [] => ret []
  | p :: ps' =>
      λ w, let '(w1, r) := p w in
           let '(w2, rs) := promise_all ps' w1 in
           (w2, match r, rs with
                | Ok a, Ok l => Ok (a :: l)
                | Throw e, _ => Throw e
                | Ok _, Throw e => Throw e
                end)
  end.

(** [for (const x of xs) { ... }] over a local variable [acc] that the
    body updates. *)
Fixpoint for_of {A S} (xs : list A) (acc : S) (body : S → A → M S) : M S :=
  match xs with
  | [] => ret acc
  | x :: xs' => const acc' := await body acc x ;; for_of xs' acc' body
  end.

Definition modify (f : World → World) : M unit := λ w, (f w, Ok tt).
Definition gets {A} (f : World → A) : M A := λ w, (w, Ok (f w)).

Definition add_log (l : LogLine) (w : World) : World :=
  {| rounds_table := rounds_table w; users_table := users_table w;
     courses_table := courses_table w; log := log w ++ [l];
     uuids_drawn := uuids_drawn w |}.

(** [logger.error] and [logger.info]. *)
Definition logger (l : LogLine) : M unit := modify (add_log l).

Definition uuidv4 (env : Env) : M string :=
  λ w, ({| rounds_table := rounds_table w; users_table := users_table w;
           courses_table := courses_table w; log := log w;
           uuids_drawn := S (uuids_drawn w) |},
        Ok (uuid env (uuids_drawn w))).

(** ** [dynamodb.send] *)

Definition set_rounds (f : gmap string Round → gmap string Round) (w : World) : World :=
  {| rounds_table := f (rounds_table w); users_table := users_table w;
     courses_table := courses_table w; log := log w;
     uuids_drawn := uuids_drawn w |}.

Definition set_users (f : gmap string User → gmap string User) (w : World) : World :=
  {| rounds_table := rounds_table w; users_table := f (users_table w);
     courses_table := courses_table w; log := log w;
     uuids_drawn := uuids_drawn w |}.

(** The store answers, or the command throws. *)
Definition send {A} (env : Env) (c : Command) (answer : M A) : M A :=
  if throws env c then throw (StorageError c) else answer.

Definition by_date (r1 r2 : Round) : Prop := String.le (round_date r1) (round_date r2).

Global Instance by_date_dec : RelDecision by_date.
Proof. intros r1 r2. unfold by_date. apply _. Defined.

(** The key condition and the filter expression of a query. *)
Definition key_condition (q : Query) (r : Round) : Prop :=
  round_userId r = query_userId q
  ∧ match query_date q with Some d => round_date r = d | None => True end.

Definition filter_expression (q : Query) (r : Round) : Prop :=
  match query_courseId q with Some c => round_courseId r = c | None => True end.

Global Instance key_condition_dec q r : Decision (key_condition q r).
Proof. unfold key_condition. destruct (query_date q); apply _. Defined.

Global Instance filter_expression_dec q r : Decision (filter_expression q r).
Proof. unfold filter_expression. destruct (query_courseId q); apply _. Defined.

(** The items of the index for a query, in index order; rounds of equal
    date come in the order the store keeps them.  The limit counts the
    items read, before the filter expression. *)
Definition index_scan (q : Query) (tbl : gmap string Round) : list Round :=
  let matching := filter (key_condition q) ((map_to_list tbl).*2) in
  let ascending := merge_sort by_date matching in
  let scanned := if ScanIndexForward q then ascending else reverse ascending in
  let limited :=
    match Limit q with Some n => take n scanned | None => scanned end in
  filter (filter_expression q) limited.

Definition send_get_round (env : Env) (key : string) : M (option Round) :=
  send env (GetCommand ROUNDS key) (gets (λ w, rounds_table w !! key)).
Definition send_get_user (env : Env) (key : string) : M (option User) :=
  send env (GetCommand USERS key) (gets (λ w, users_table w !! key)).
Definition send_get_course (env : Env) (key : string) : M (option Course) :=
  send env (GetCommand COURSES key) (gets (λ w, courses_table w !! key)).
Definition send_put (env : Env) (item : Round) : M unit :=
  send env (PutCommand item) (modify (set_rounds <[round_id item := item]>)).
Definition send_query (env : Env) (q : Query) : M (list Round) :=
  send env (QueryCommand q) (gets (λ w, index_scan q (rounds_table w))).
Definition send_update (env : Env) (key : string) (handicap : number)
    (updatedAt : string) : M unit :=
  send env (UpdateCommand key handicap updatedAt)
    (modify (set_users <[key := {| user_handicap := handicap;
                                   user_updatedAt := updatedAt |}]>)).
Definition send_delete (env : Env) (key : string) : M unit :=
  send env (DeleteCommand key) (modify (set_rounds (delete key))).

(** ** [updateUserHandicap] *)

Definition latest_rounds_query (userId : string) : Query :=
  {| query_userId := userId; query_date := None; query_courseId := None;
     ScanIndexForward := false; Limit := Some 20%nat |}.

Definition updateUserHandicap (env : Env) (userId : string) : M unit :=
  try_catch
    (const rounds := await send_query env (latest_rounds_query userId) ;;
     if decide (length rounds = 0%nat) then
       await send_update env userId (int 54) (now env) ;;
       ret tt
     else
       let differentials := round_scoreDifferential <$> rounds in
       let newHandicap := Handicap.newHandicap differentials in
       await send_update env userId
               (Math_max (int 0) (Math_min (int 54) newHandicap)) (now env) ;;
       logger (LogHandicapUpdated userId newHandicap (length rounds)))
    (λ error, logger (LogError "Error updating handicap:" error)).

(** The handicap in the user item. *)
Definition stored_handicap (userId : string) (w : World) : option number :=
  user_handicap <$> users_table w !! userId.

(** ** The handlers of the round controller *)

Record HistoryEntry := {
  entry_date : string;
  entry_handicap : number;
  entry_scoreDifferential : number
}.

Inductive Body :=
  | Message (message : string)
  | RoundJson (round : Round)
  | CreatedJson (message : string) (rounds : list Round)
  | DeletedJson (message : string) (deletedCount : nat)
  | HistoryJson (history : list HistoryEntry).

Record Response := { status : nat; json : Body }.

(** The body of [createRound].  The handler spreads it into the item after
    the keys [id] and [userId], so that a body which carries these keys
    replaces the identifier drawn and the requester: [input_id] and
    [input_userId] are these keys, [None] when the body has none. *)
Record CreateRoundInput := {
  input_id : option string;
  input_userId : option string;
  input_courseId : string;
  input_courseName : string;
  input_teeColor : string;
  input_numberOfHoles : option number;
  input_date : string;
  input_players : list string;
  input_holes : list Hole
}.

Record PlayerScore := {
  playerScore_playerId : string;
  playerScore_holes : list Hole
}.

Record CreateMultiPlayerRoundInput := {
  multi_courseId : string;
  multi_courseName : string;
  multi_teeColor : string;
  multi_numberOfHoles : option number;
  multi_date : string;
  multi_playerScores : list PlayerScore
}.

Definition totalStrokes (holes : list Hole) : number :=
  foldl (λ sum hole, sum + hole_strokes hole) (int 0) holes.
Definition totalParOf (holes : list Hole) : number :=
  foldl (λ sum hole, sum + hole_par hole) (int 0) holes.

(** The rating passed on: half the 18-hole rating for a 9-hole round. *)
Definition ratingFor (course : Course) (teeColor : string)
    (numberOfHoles : option number) : number :=
  if decide (numberOfHoles = Some (int 9))
  then course_rating course teeColor / int 2
  else course_rating course teeColor.

Definition createRound (env : Env) (userId : string)
    (roundData : CreateRoundInput) : M Response :=
  try_catch
    (const courseResult := await send_get_course env (input_courseId roundData) ;;
     match courseResult with
     | None => ret {| status := 404; json := Message "Golfbane ikke funnet" |}
     | Some course =>
         let courseRating :=
           ratingFor course (input_teeColor roundData)
                     (input_numberOfHoles roundData) in
         let slopeRating := course_slope course (input_teeColor roundData) in
         let totalScore := totalStrokes (input_holes roundData) in
         let totalPar := totalParOf (input_holes roundData) in
         let scoreDifferential :=
           calculateScoreDifferential totalScore courseRating slopeRating
             (input_numberOfHoles roundData) in
         const roundId := await uuidv4 env ;;
         let timestamp := now env in
         let round :=
           {| round_id := default roundId (input_id roundData);
              round_userId := default userId (input_userId roundData);
              round_courseId := input_courseId roundData;
              round_courseName := input_courseName roundData;
              round_teeColor := input_teeColor roundData;
              round_numberOfHoles := input_numberOfHoles roundData;
              round_date := input_date roundData;
              round_players := input_players roundData;
              round_holes := input_holes roundData;
              round_totalScore := totalScore; round_totalPar := totalPar;
              round_scoreDifferential := scoreDifferential;
              round_createdAt := timestamp; round_updatedAt := timestamp |} in
         await send_put env round ;;
         await (if decide (userId = EmptyString) then ret tt
                else updateUserHandicap env userId) ;;
         ret {| status := 201; json := RoundJson round |}
     end)
    (λ error,
       await logger (LogError "Create round error:" error) ;;
       ret {| status := 500; json := Message "Kunne ikke opprette runde" |}).

(** The body of the loop of [createMultiPlayerRound] over the player
    scores: one round per player, put and followed by the update of that
    player's handicap. *)
Definition createPlayerRound (env : Env) (roundData : CreateMultiPlayerRoundInput)
    (playerIds : list string) (courseRating slopeRating : number)
    (timestamp : string) (createdRounds : list Round)
    (playerScore : PlayerScore) : M (list Round) :=
  let totalScore := totalStrokes (playerScore_holes playerScore) in
  let totalPar := totalParOf (playerScore_holes playerScore) in
  let scoreDifferential :=
    calculateScoreDifferential totalScore courseRating slopeRating
      (multi_numberOfHoles roundData) in
  const roundId := await uuidv4 env ;;
  let otherPlayers :=
    filter (λ id, id ≠ playerScore_playerId playerScore) playerIds in
  let round :=
    {| round_id := roundId;
       round_userId := playerScore_playerId playerScore;
       round_courseId := multi_courseId roundData;
       round_courseName := multi_courseName roundData;
       round_teeColor := multi_teeColor roundData;
       round_numberOfHoles := multi_numberOfHoles roundData;
       round_date := multi_date roundData;
       round_players := otherPlayers;
       round_holes := playerScore_holes playerScore;
       round_totalScore := totalScore;
       round_totalPar := totalPar;
       round_scoreDifferential := scoreDifferential;
       round_createdAt := timestamp;
       round_updatedAt := timestamp |} in
  await send_put env round ;;
  await updateUserHandicap env (playerScore_playerId playerScore) ;;
  ret (createdRounds ++ [round]).

Definition createMultiPlayerRound (env : Env) (requestingUserId : string)
    (roundData : CreateMultiPlayerRoundInput) : M Response :=
  try_catch
    (let playerIds := playerScore_playerId <$> multi_playerScores roundData in
     if decide (requestingUserId ∈ playerIds) then
       const playerChecks := await promise_all (send_get_user env <$> playerIds) ;;
       let missingPlayers := filter (λ result, result = None) playerChecks in
       if decide (0 < length missingPlayers)%nat then
         ret {| status := 400;
                json := Message "En eller flere spillere finnes ikke i systemet" |}
       else
         const courseResult := await send_get_course env (multi_courseId roundData) ;;
         match courseResult with
         | None => ret {| status := 404; json := Message "Golfbane ikke funnet" |}
         | Some course =>
             let courseRating :=
               ratingFor course (multi_teeColor roundData)
                         (multi_numberOfHoles roundData) in
             let slopeRating := course_slope course (multi_teeColor roundData) in
             let timestamp := now env in
             const createdRounds := await
               for_of (multi_playerScores roundData) []
                 (createPlayerRound env roundData playerIds courseRating
                                    slopeRating timestamp) ;;
             ret {| status := 201;
                    json := CreatedJson
                              ("Successfully created "
                                 +:+ pretty (length createdRounds) +:+ " rounds")
                              createdRounds |}
         end
     else
       ret {| status := 403;
              json := Message "Du må være en av spillerne i runden" |})
    (λ error,
       await logger (LogError "Create multi-player round error:" error) ;;
       ret {| status := 500; json := Message "Kunne ikke opprette runde" |}).

(** [[...new Set(xs)]]: the first occurrence of each value, in order. *)
Definition unique (xs : list string) : list string :=
  reverse (remove_dups (reverse xs)).

Definition related_rounds_query (playerId date courseId : string) : Query :=
  {| query_userId := playerId; query_date := Some date;
     query_courseId := Some courseId; ScanIndexForward := true;
     Limit := None |}.

Definition deleteRound (env : Env) (userId : string) (id : string) : M Response :=
  try_catch
    (const existing := await send_get_round env id ;;
     match existing with
     | None => ret {| status := 403; json := Message "Ingen tilgang" |}
     | Some round =>
         if decide (round_userId round = userId) then
           const relatedRounds := await
             (if decide (0 < length (round_players round))%nat then
                let allPlayerIds := userId :: round_players round in
                const relatedRoundsResult := await
                  promise_all
                    ((λ playerId,
                        send_query env
                          (related_rounds_query playerId (round_date round)
                                                (round_courseId round)))
                       <$> allPlayerIds) ;;
                ret (concat relatedRoundsResult)
              else ret [round]) ;;
           await promise_all ((λ r, send_delete env (round_id r)) <$> relatedRounds) ;;
           let uniquePlayerIds := unique (round_userId <$> relatedRounds) in
           await promise_all (updateUserHandicap env <$> uniquePlayerIds) ;;
           ret {| status := 200;
                  json := DeletedJson
                            (pretty (length relatedRounds) +:+ " runde"
                               +:+ (if decide (1 < length relatedRounds)%nat
                                    then "r" else EmptyString)
                               +:+ " slettet")
                            (length relatedRounds) |}
         else ret {| status := 403; json := Message "Ingen tilgang" |}
     end)
    (λ error,
       await logger (LogError "Delete round error:" error) ;;
       ret {| status := 500; json := Message "Kunne ikke slette runde" |}).

(** ** [getHandicapHistory] *)

Definition all_rounds_query (userId : string) : Query :=
  {| query_userId := userId; query_date := None; query_courseId := None;
     ScanIndexForward := true; Limit := None |}.

(** The loop over [i]: entry [i] is computed from [rounds.slice(0, i + 1)]. *)
Definition handicapHistory (rounds : list Round) : list HistoryEntry :=
  imap (λ i round,
          let currentRounds := slice0 (i + 1) rounds in
          {| entry_date := round_date round;
             entry_handicap :=
               History.entryHandicap (round_scoreDifferential <$> currentRounds);
             entry_scoreDifferential := round_scoreDifferential round |})
       rounds.

Definition getHandicapHistory (env : Env) (userId : string) : M Response :=
  try_catch
    (const rounds := await send_query env (all_rounds_query userId) ;;
     ret {| status := 200; json := HistoryJson (handicapHistory rounds) |})
    (λ error,
       await logger (LogError "Get handicap history error:" error) ;;
       ret {| status := 500;
              json := Message "Kunne ikke hente handicap-historikk" |}).

(** ** The interface of the specification *)

(** The step table of the count of scores, row by row; a round count of
    zero has no row. *)
Definition stepTable (roundCount : nat) : option nat :=
  if decide (1 ≤ roundCount ≤ 2)%nat then Some 1%nat
  else if decide (3 ≤ roundCount ≤ 5)%nat then Some 2%nat
  else if decide (6 ≤ roundCount ≤ 8)%nat then Some 3%nat
  else if decide (9 ≤ roundCount ≤ 11)%nat then Some 4%nat
  else if decide (12 ≤ roundCount ≤ 15)%nat then Some 5%nat
  else if decide (16 ≤ roundCount ≤ 18)%nat then Some 6%nat
  else if decide (roundCount = 19)%nat then Some 7%nat
  else if decide (20 ≤ roundCount)%nat then Some 8%nat
  else None.

(** The count rule of the handicap history: 8 from 20 rounds on,
    floor(count x 0.4) from 6 on, 1 from 3 on, and no aggregation below. *)
Definition historyCount (count : nat) : option nat :=
  if decide (20 ≤ count)%nat then Some 8%nat
  else if decide (6 ≤ count)%nat then Some (count * 4 / 10)%nat
  else if decide (3 ≤ count)%nat then Some 1%nat
  else None.

(** The rounds of a user, most recent first. *)
Definition rounds_by_recency (userId : string) : Query :=
  {| query_userId := userId; query_date := None; query_courseId := None;
     ScanIndexForward := false; Limit := None |}.

(** ** Faults of the handicap update *)

(** The commands [updateUserHandicap] sends: the query of the latest 20
    rounds and the update of the user. *)
Definition is_handicap_command (c : Command) : bool :=
  match c with
  | QueryCommand q =>
      match Limit q, query_date q, query_courseId q with
      | Some n, None, None => (n =? 20)%nat && negb (ScanIndexForward q)
      | _, _, _ => false
      end
  | UpdateCommand _ _ _ => true
  | _ => false
  end.

(** The environment [env], except that the commands of the handicap update
    throw as [faults] says. *)
Definition with_handicap_faults (faults : Command → bool) (env : Env) : Env :=
  {| throws := λ c, if is_handicap_command c then faults c else throws env c;
     uuid := uuid env;
     now := now env |}.

(** Two worlds with the same rounds, courses and identifiers drawn; the
    users and the log may differ. *)
Definition same_store (w1 w2 : World) : Prop :=
  rounds_table w1 = rounds_table w2
  ∧ courses_table w1 = courses_table w2
  ∧ uuids_drawn w1 = uuids_drawn w2.

(** Two promises agree when, run from stores with the same rounds, courses
    and identifiers drawn, they settle alike and leave such stores. *)
Definition agree {A} (m1 m2 : M A) : Prop :=
  ∀ w1 w2, same_store w1 w2 ->
    (m1 w1).2 = (m2 w2).2 ∧ same_store (m1 w1).1 (m2 w2).1.

(** ** Sample data *)

Definition sample_round (id userId date : string) (scoreDifferential : number) : Round :=
  {| round_id := id; round_userId := userId; round_courseId := "oslo-gk";
     round_courseName := "Oslo Golfklubb"; round_teeColor := "yellow";
     round_numberOfHoles := Some (int 18); round_date := date;
     round_players := []; round_holes := [];
     round_totalScore := int 90; round_totalPar := int 72;
     round_scoreDifferential := scoreDifferential;
     round_createdAt := date; round_updatedAt := date |}.

Definition sample_days : list string :=
  ["01"; "02"; "03"; "04"; "05"; "06"; "07"; "08"; "09"; "10"; "11";
   "12"; "13"; "14"; "15"; "16"; "17"; "18"; "19"; "20"; "21"].

(** Twenty-one rounds of one player, one a day; the round of day [d] has
    differential [d], the oldest being the best. *)
Definition sample_rounds : gmap string Round :=
  list_to_map
    (imap (λ i day, ("round-" +:+ day,
                     sample_round ("round-" +:+ day) "kari" ("2024-01-" +:+ day)
                                  (int (Z.of_nat (i + 1)))))
          sample_days).

(** A store that answers every command. *)
Definition reliable : Env :=
  {| throws := λ _, false;
     uuid := λ n, "uuid-" +:+ pretty n;
     now := "2024-02-01T12:00:00.000Z" |}.

(** A store that rejects every command. *)
Definition unreachable : Env :=
  {| throws := λ _, true; uuid := uuid reliable; now := now reliable |}.

Definition sample_world : World :=
  {| rounds_table := sample_rounds; users_table := ∅; courses_table := ∅;
     log := []; uuids_drawn := 0 |}.

Definition new_player_world : World :=
  {| rounds_table := ∅; users_table := ∅; courses_table := ∅;
     log := []; uuids_drawn := 0 |}.

Definition returning_player_world : World :=
  {| rounds_table := sample_rounds;
     users_table := {[ "kari" := {| user_handicap := int 36;
                                    user_updatedAt := "2023-12-24T18:00:00.000Z" |} ]};
     courses_table := ∅;
     log := [LogHandicapUpdated "kari" (int 36) 1];
     uuids_drawn := 7 |}.

Definition sample_course : Course :=
  {| course_rating := λ _, dec 712 10; course_slope := λ _, int 128 |}.

Definition course_world : World :=
  {| rounds_table := sample_rounds; users_table := ∅;
     courses_table := {[ "oslo-gk" := sample_course ]};
     log := []; uuids_drawn := 0 |}.

Definition sample_input : CreateRoundInput :=
  {| input_id := None; input_userId := None;
     input_courseId := "oslo-gk"; input_courseName := "Oslo Golfklubb";
     input_teeColor := "yellow"; input_numberOfHoles := Some (int 9);
     input_date := "2024-01-22"; input_players := [];
     input_holes := replicate 9 {| hole_par := int 4; hole_strokes := int 5 |} |}.

(** ** Further handlers and auxiliary definitions *)

(** The round [createRound] builds from its input, the course and the
    identifier drawn: the identifier and the owner are those of the body
    when it carries them. *)
Definition createdRound (env : Env) (userId : string)
    (roundData : CreateRoundInput) (course : Course) (roundId : string) : Round :=
  {| round_id := default roundId (input_id roundData);
     round_userId := default userId (input_userId roundData);
     round_courseId := input_courseId roundData;
     round_courseName := input_courseName roundData;
     round_teeColor := input_teeColor roundData;
     round_numberOfHoles := input_numberOfHoles roundData;
     round_date := input_date roundData;
     round_players := input_players roundData;
     round_holes := input_holes roundData;
     round_totalScore := totalStrokes (input_holes roundData);
     round_totalPar := totalParOf (input_holes roundData);
     round_scoreDifferential :=
       calculateScoreDifferential (totalStrokes (input_holes roundData))
         (ratingFor course (input_teeColor roundData)
                    (input_numberOfHoles roundData))
         (course_slope course (input_teeColor roundData))
         (input_numberOfHoles roundData);
     round_createdAt := now env; round_updatedAt := now env |}.

Definition draw_uuid (w : World) : World :=
  {| rounds_table := rounds_table w; users_table := users_table w;
     courses_table := courses_table w; log := log w;
     uuids_drawn := S (uuids_drawn w) |}.

(** ** [getRound], [getRoundsByCriteria] and [updateRound] *)

Definition getRound (env : Env) (userId : string) (id : string) : M Response :=
  try_catch
    (const result := await send_get_round env id ;;
     match result with
     | None => ret {| status := 404; json := Message "Runde ikke funnet" |}
     | Some item =>
         if decide (round_userId item ≠ userId)
         then ret {| status := 403; json := Message "Ingen tilgang" |}
         else ret {| status := 200; json := RoundJson item |}
     end)
    (λ error,
       await logger (LogError "Get round error:" error) ;;
       ret {| status := 500; json := Message "Kunne ikke hente runde" |}).

(** The body of [getRoundsByCriteria]; [None] is an attribute that is
    missing and, for [userIds], also a value that is not an array. *)
Record CriteriaInput := {
  criteria_date : option string;
  criteria_courseId : option string;
  criteria_userIds : option (list string)
}.

Inductive ListBody :=
  | ListMessage (message : string)
  | RoundsJson (rounds : list Round).

Record ListResponse := { list_status : nat; list_json : ListBody }.

(** [!s] for a string that may be missing. *)
Definition falsy (s : option string) : bool :=
  match s with
  | None => true
  | Some s => bool_decide (s = EmptyString)
  end.

Definition getRoundsByCriteria (env : Env) (body : CriteriaInput) : M ListResponse :=
  try_catch
    (match criteria_userIds body with
     | Some userIds =>
         if falsy (criteria_date body) || falsy (criteria_courseId body) then
           ret {| list_status := 400;
                  list_json := ListMessage "date, courseId og userIds er påkrevd" |}
         else
           let date := default EmptyString (criteria_date body) in
           let courseId := default EmptyString (criteria_courseId body) in
           const rounds := await
             promise_all
               ((λ userId,
                   const items := await
                     send_query env (related_rounds_query userId date courseId) ;;
                   ret (head items))
                  <$> userIds) ;;
           let validRounds := omap id rounds in
           ret {| list_status := 200; list_json := RoundsJson validRounds |}
     | None =>
         ret {| list_status := 400;
                list_json := ListMessage "date, courseId og userIds er påkrevd" |}
     end)
    (λ error,
       await logger (LogError "Get rounds by criteria error:" error) ;;
       ret {| list_status := 500; list_json := ListMessage "Kunne ikke hente runder" |}).

(** The item of a round after ['set holes = :holes, updatedAt = :updatedAt']. *)
Definition with_holes (item : Round) (holes : list Hole) (updatedAt : string) : Round :=
  {| round_id := round_id item; round_userId := round_userId item;
     round_courseId := round_courseId item;
     round_courseName := round_courseName item;
     round_teeColor := round_teeColor item;
     round_numberOfHoles := round_numberOfHoles item;
     round_date := round_date item;
     round_players := round_players item;
     round_holes := holes;
     round_totalScore := round_totalScore item;
     round_totalPar := round_totalPar item;
     round_scoreDifferential := round_scoreDifferential item;
     round_createdAt := round_createdAt item;
     round_updatedAt := updatedAt |}.

(** An item that has a key, holes and an update time only: what the update
    of a key without item leaves. *)
Definition holes_only (key : string) (holes : list Hole) (updatedAt : string) : Round :=
  {| round_id := key; round_userId := EmptyString;
     round_courseId := EmptyString; round_courseName := EmptyString;
     round_teeColor := EmptyString; round_numberOfHoles := None;
     round_date := EmptyString; round_players := []; round_holes := holes;
     round_totalScore := int 0; round_totalPar := int 0;
     round_scoreDifferential := int 0;
     round_createdAt := EmptyString; round_updatedAt := updatedAt |}.

(** The update of the holes of a round, returning the new item.  The
    store's commands of the handicap engine have no update of a round; the
    command is identified, for the store's verdict and in the error it
    throws, with the put of the item it leaves. *)
Definition send_update_holes (env : Env) (key : string) (holes : list Hole)
    (updatedAt : string) : M Round :=
  λ w,
    let item :=
      match rounds_table w !! key with
      | Some item => with_holes item holes updatedAt
      | None => holes_only key holes updatedAt
      end in
    send env (PutCommand item)
      (await modify (set_rounds <[key := item]>) ;; ret item) w.

Definition updateRound (env : Env) (userId : string) (id : string)
    (holes : list Hole) : M Response :=
  try_catch
    (const existing := await send_get_round env id ;;
     if decide (existing = None ∨ round_userId <$> existing ≠ Some userId) then
       ret {| status := 403; json := Message "Ingen tilgang" |}
     else
       const attributes := await send_update_holes env id holes (now env) ;;
       ret {| status := 200; json := RoundJson attributes |})
    (λ error,
       await logger (LogError "Update round error:" error) ;;
       ret {| status := 500; json := Message "Kunne ikke oppdatere runde" |}).

(** Every item of the table is stored under its own identifier. *)
Definition keyed_by_id (tbl : gmap string Round) : Prop :=
  ∀ key round, tbl !! key = Some round -> round_id round = key.

(** The round [createMultiPlayerRound] builds for one player. *)
Definition playerRound (roundData : CreateMultiPlayerRoundInput)
    (course : Course) (timestamp roundId : string)
    (playerScore : PlayerScore) : Round :=
  {| round_id := roundId;
     round_userId := playerScore_playerId playerScore;
     round_courseId := multi_courseId roundData;
     round_courseName := multi_courseName roundData;
     round_teeColor := multi_teeColor roundData;
     round_numberOfHoles := multi_numberOfHoles roundData;
     round_date := multi_date roundData;
     round_players :=
       filter (λ id, id ≠ playerScore_playerId playerScore)
              (playerScore_playerId <$> multi_playerScores roundData);
     round_holes := playerScore_holes playerScore;
     round_totalScore := totalStrokes (playerScore_holes playerScore);
     round_totalPar := totalParOf (playerScore_holes playerScore);
     round_scoreDifferential :=
       calculateScoreDifferential (totalStrokes (playerScore_holes playerScore))
         (ratingFor course (multi_teeColor roundData)
                    (multi_numberOfHoles roundData))
         (course_slope course (multi_teeColor roundData))
         (multi_numberOfHoles roundData);
     round_createdAt := timestamp;
     round_updatedAt := timestamp |}.

(** A store with a single round, under its identifier, and its player. *)
Definition one_round_world : World :=
  {| rounds_table :=
       {[ "round-01" := sample_round "round-01" "kari" "2024-01-01" (int 12) ]};
     users_table := {[ "kari" := {| user_handicap := int 12;
                                    user_updatedAt := "2024-01-01" |} ]};
     courses_table := ∅; log := []; uuids_drawn := 0 |}.

(** Two registered players and the course of the sample rounds. *)
Definition two_player_world : World :=
  {| rounds_table := ∅;
     users_table :=
       {[ "kari" := {| user_handicap := int 54; user_updatedAt := "2024-01-01" |};
          "ola" := {| user_handicap := int 54; user_updatedAt := "2024-01-01" |} ]};
     courses_table := {[ "oslo-gk" := sample_course ]};
     log := []; uuids_drawn := 0 |}.

(** A round of nine holes played by the two of them. *)
Definition sample_multi_input : CreateMultiPlayerRoundInput :=
  {| multi_courseId := "oslo-gk"; multi_courseName := "Oslo Golfklubb";
     multi_teeColor := "yellow"; multi_numberOfHoles := Some (int 9);
     multi_date := "2024-01-22";
     multi_playerScores :=
       [ {| playerScore_playerId := "kari";
            playerScore_holes :=
              replicate 9 {| hole_par := int 4; hole_strokes := int 5 |} |};
         {| playerScore_playerId := "ola";
            playerScore_holes :=
              replicate 9 {| hole_par := int 4; hole_strokes := int 6 |} |} ] |}.

(** The rounds that the queries of [deleteRound] return for a round with
    other players. *)
Definition relatedRounds (userId : string) (target : Round)
    (tbl : gmap string Round) : list Round :=
  concat ((λ playerId,
             index_scan (related_rounds_query playerId (round_date target)
                           (round_courseId target)) tbl)
            <$> userId :: round_players target).

(** The rounds [createMultiPlayerRound] builds, one per player score, under
    the identifiers drawn in turn. *)
Definition createdRounds (env : Env) (roundData : CreateMultiPlayerRoundInput)
    (course : Course) (w : World) : list Round :=
  imap (λ i playerScore,
          playerRound roundData course (now env)
            (uuid env (uuids_drawn w + i)) playerScore)
       (multi_playerScores roundData).

(** The round of one player of a game of two. *)
Definition shared_round (id userId coPlayer : string) : Round :=
  {| round_id := id; round_userId := userId; round_courseId := "oslo-gk";
     round_courseName := "Oslo Golfklubb"; round_teeColor := "yellow";
     round_numberOfHoles := Some (int 18); round_date := "2024-01-22";
     round_players := [coPlayer]; round_holes := [];
     round_totalScore := int 90; round_totalPar := int 72;
     round_scoreDifferential := int 16;
     round_createdAt := "2024-01-22"; round_updatedAt := "2024-01-22" |}.

(** A store with the two rounds of one game. *)
Definition shared_round_world : World :=
  {| rounds_table :=
       {[ "game-kari" := shared_round "game-kari" "kari" "ola";
          "game-ola" := shared_round "game-ola" "ola" "kari" ]};
     users_table := ∅; courses_table := ∅; log := []; uuids_drawn := 2 |}.

(** * The arithmetic of the source: IEEE 754 double precision

    The handlers above are stated over exact rationals, which decides their
    structure: which rounds are read, which are selected, what is written.
    The values themselves are computed by JavaScript in double precision,
    where every sum, product and quotient is rounded to the nearest double.
    This module embeds the numeric functions of the source over doubles,
    operation by operation, with the Standard Library's specification of
    binary64 ([SpecFloat], 53 bits of precision, round to nearest even). *)

Module Binary64.

(** The chain of comparisons on [rounds.length] involves no arithmetic. *)
Definition numberOfScoresToUse : nat → nat := Handicap.numberOfScoresToUse.

Definition double := spec_float.
Definition prec : Z := 53.
Definition emax : Z := 1024.

Definition add : double → double → double := SFadd prec emax.
Definition sub : double → double → double := SFsub prec emax.
Definition mul : double → double → double := SFmul prec emax.
Definition div : double → double → double := SFdiv prec emax.

(** An integer literal, and a decimal literal n/d with d a power of ten:
    the double nearest to it. *)
Definition of_Z (z : Z) : double := binary_normalize prec emax z 0 false.
Definition dec (n : Z) (d : positive) : double :=
  match n with
  | Z0 => S754_zero false
  | Zpos m => div (S754_finite false m 0) (S754_finite false d 0)
  | Zneg m => div (S754_finite true m 0) (S754_finite false d 0)
  end.

(** [xs.length] as a number. *)
Definition len {A} (xs : list A) : double := of_Z (Z.of_nat (length xs)).

Definition is_nan (x : double) : bool :=
  match x with S754_nan => true | _ => false end.

(** The exact value of a double; an infinity counts as the power of two
    beyond the largest double, and a NaN, which compares with nothing, is
    given the value 0. *)
Definition value (x : double) : Q :=
  match x with
  | S754_zero _ | S754_nan => 0
  | S754_infinity s => inject_Z (if s then - 2 ^ emax else 2 ^ emax)
  | S754_finite s m e =>
      let n := if s then Z.neg m else Z.pos m in
      match e with
      | Zneg k => n # (2 ^ k)
      | _ => inject_Z (n * 2 ^ e)
      end
  end.

(** [a === b], [a < b] and [a <= b] on numbers: false when a NaN is
    compared. *)
Definition strict_equal (a b : double) : bool :=
  negb (is_nan a) && negb (is_nan b) && Qeq_bool (value a) (value b).
Definition lt (a b : double) : bool :=
  negb (is_nan a) && negb (is_nan b) && negb (Qle_bool (value b) (value a)).

(** [Math.round]: the nearest integer, a half goes up; a result of zero
    keeps the sign of the argument.  The integer is computed exactly. *)
Definition Math_round_Z (x : double) : Z := Qfloor (value x + (1 # 2)).
Definition Math_round (x : double) : double :=
  match x with
  | S754_finite s _ _ =>
      let k := Math_round_Z x in
      if decide (k = 0%Z) then S754_zero s else of_Z k
  | _ => x
  end.

(** [Math.floor], its value as an integer. *)
Definition floorZ (x : double) : Z := Qfloor (value x).

(** [Math.max] and [Math.min] of two numbers: NaN if either is, and of the
    two zeros the positive one is the greater. *)
Definition Math_max (a b : double) : double :=
  if is_nan a || is_nan b then S754_nan
  else if lt a b then b
  else if lt b a then a
  else match a with S754_zero true => b | _ => a end.
Definition Math_min (a b : double) : double :=
  if is_nan a || is_nan b then S754_nan
  else if lt a b then a
  else if lt b a then b
  else match a with S754_zero false => b | _ => a end.

(** [xs.reduce((sum, x) => sum + x, 0)]. *)
Definition sum (xs : list double) : double := foldl add (of_Z 0) xs.

(** [xs.sort((a, b) => a - b)]: the difference of two doubles has the sign
    of the difference of their values, so the sort is the stable ascending
    sort by value.  With a NaN in the list the comparator of the source is
    no order and the result is left to the engine; what is stated of the
    order assumes that there is none. *)
Definition le (a b : double) : Prop := (value a <= value b)%Q.

Global Instance le_dec : RelDecision le.
Proof. intros a b. unfold le. destruct (Qlt_le_dec (value b) (value a)).
  - right. by apply Qlt_not_le.
  - by left.
Defined.

Definition sort_ascending (xs : list double) : list double := merge_sort le xs.

(** ** [calculateScoreDifferential] *)

Definition calculateScoreDifferential
    (totalScore courseRating slopeRating : double)
    (numberOfHoles : option double) : double :=
  let numberOfHoles := default (of_Z 18) numberOfHoles in
  let adjustedScore :=
    if strict_equal numberOfHoles (of_Z 9)
    then mul totalScore (of_Z 2) else totalScore in
  let adjustedRating :=
    if strict_equal numberOfHoles (of_Z 9)
    then mul courseRating (of_Z 2) else courseRating in
  div (mul (sub adjustedScore adjustedRating) (of_Z 113)) slopeRating.

(** ** The handicap of [updateUserHandicap] *)

Module Handicap.

Definition sortedDifferentials (differentials : list double) : list double :=
  sort_ascending differentials.

Definition bestDifferentials (differentials : list double) : list double :=
  slice0 (numberOfScoresToUse (length differentials))
         (sortedDifferentials differentials).

Definition averageDifferential (differentials : list double) : double :=
  div (sum (bestDifferentials differentials))
      (len (bestDifferentials differentials)).

Definition newHandicap (differentials : list double) : double :=
  div (Math_round (mul (averageDifferential differentials) (of_Z 10))) (of_Z 10).

Definition computeHandicap (differentials : list double) : double :=
  if decide (length differentials = 0%nat)
  then of_Z 54
  else Math_max (of_Z 0) (Math_min (of_Z 54) (newHandicap differentials)).

End Handicap.

(** ** The loop of [getHandicapHistory] *)

Module History.

(** What the loop reads of a round. *)
Record Played := { played_date : string; played_scoreDifferential : double }.

Record Entry := {
  history_date : string;
  history_handicap : double;
  history_scoreDifferential : double
}.

Definition countToUse (length : nat) : nat :=
  if decide (20 ≤ length)%nat then 8%nat
  else if decide (6 ≤ length)%nat
       then Z.to_nat (floorZ (mul (of_Z (Z.of_nat length)) (dec 4 10)))
  else if decide (3 ≤ length)%nat then 1%nat
  else 1%nat.

Definition sortedDiffs (currentDiffs : list double) : list double :=
  sort_ascending currentDiffs.

Definition bestDiffs (currentDiffs : list double) : list double :=
  slice0 (countToUse (length currentDiffs)) (sortedDiffs currentDiffs).

Definition avgDiff (currentDiffs : list double) : double :=
  div (sum (bestDiffs currentDiffs)) (len (bestDiffs currentDiffs)).

(** The variable [handicap] at the end of the loop body. *)
Definition handicap (currentDiffs : list double) : double :=
  if decide (3 ≤ length currentDiffs)%nat
  then Math_max (of_Z 0) (Math_min (of_Z 54) (mul (avgDiff currentDiffs) (dec 96 100)))
  else of_Z 54.

(** The [handicap] field pushed to [history]. *)
Definition entryHandicap (currentDiffs : list double) : double :=
  div (Math_round (mul (handicap currentDiffs) (of_Z 10))) (of_Z 10).

(** The loop over [i]: entry [i] is computed from [rounds.slice(0, i + 1)]. *)
Definition handicapHistory (rounds : list Played) : list Entry :=
  imap (λ i round,
          let currentRounds := slice0 (i + 1) rounds in
          {| history_date := played_date round;
             history_handicap :=
               entryHandicap (played_scoreDifferential <$> currentRounds);
             history_scoreDifferential := played_scoreDifferential round |})
       rounds.

End History.

End Binary64.

(** * Facts about numbers *)

Lemma int_inj a b : int a = int b -> a = b.
Proof. intros E. injection E. auto. Qed.

Lemma int_add a b : int (a + b) = int a + int b.
Proof.
  apply Qc_is_canon.
  change (inject_Z (a + b) == Qred (inject_Z a + inject_Z b))%Q.
  rewrite Qred_correct, inject_Z_plus. reflexivity.
Qed.

Lemma int_le a b : (a <= b)%Z <-> int a ≤ int b.
Proof.
  change (int a ≤ int b) with (inject_Z a <= inject_Z b)%Q.
  rewrite <- Zle_Qle. reflexivity.
Qed.

Lemma int_lt a b : (a < b)%Z <-> int a < int b.
Proof.
  change (int a < int b) with (inject_Z a < inject_Z b)%Q.
  rewrite <- Zlt_Qlt. reflexivity.
Qed.

Lemma floorZ_le x : int (floorZ x) ≤ x.
Proof. exact (Qfloor_le (this x)). Qed.

Lemma floorZ_lt x : x < int (floorZ x + 1).
Proof. exact (Qlt_floor (this x)). Qed.


Lemma floorZ_int z : floorZ (int z) = z.
Proof. exact (Qfloor_Z z). Qed.

Lemma floorZ_unique x k : int k ≤ x -> x < int (k + 1) -> floorZ x = k.
Proof.
  intros H1 H2.
  pose proof (floorZ_le x). pose proof (floorZ_lt x).
  assert (int k < int (floorZ x + 1)) by (eapply Qcle_lt_trans; eauto).
  assert (int (floorZ x) < int (k + 1)) by (eapply Qcle_lt_trans; eauto).
  apply (proj2 (int_lt _ _)) in H3, H4. lia.
Qed.

Lemma half_half : dec 1 2 + dec 1 2 = int 1.
Proof. apply Qc_is_canon. reflexivity. Qed.

Lemma Math_round_bounds x :
  x - dec 1 2 < Math_round x ∧ Math_round x ≤ x + dec 1 2.
Proof.
  unfold Math_round. split.
  - pose proof (floorZ_lt (x + dec 1 2)) as H.
    rewrite int_add, <- half_half in H.
    apply (Qcplus_lt_mono_r _ _ (dec 1 2)).
    replace (x - dec 1 2 + dec 1 2) with x by ring.
    apply (Qcplus_lt_mono_r _ _ (dec 1 2)).
    replace (int (floorZ (x + dec 1 2)) + dec 1 2 + dec 1 2) with (int (floorZ (x + dec 1 2)) + (dec 1 2 + dec 1 2)) by ring. exact H.
  - apply floorZ_le.
Qed.












Lemma Qcle_div_l x y z : 0 < z -> y ≤ x * z -> y / z ≤ x.
Proof.
  intros Hz H. apply (Qcmult_le_mono_pos_r _ _ z); [done|].
  replace (y / z * z) with y; [done|].
  field. intros ->. inversion Hz.
Qed.



(** ** Sorting and selecting *)
Lemma sort_ascending_Permutation xs : sort_ascending xs ≡ₚ xs.
Proof. apply merge_sort_Permutation. Qed.

Lemma sort_ascending_Sorted xs : StronglySorted Qcle (sort_ascending xs).
Proof. apply StronglySorted_merge_sort; apply _. Qed.

Lemma sort_ascending_length xs : length (sort_ascending xs) = length xs.
Proof. apply Permutation_length, sort_ascending_Permutation. Qed.

Lemma sort_ascending_unique xs ys :
  Sorted Qcle ys -> ys ≡ₚ xs -> ys = sort_ascending xs.
Proof.
  intros Hs Hp. apply (Sorted_unique Qcle); [done | |].
  - apply Sorted_merge_sort; apply _.
  - by rewrite sort_ascending_Permutation.
Qed.

Lemma sort_ascending_perm xs ys : xs ≡ₚ ys -> sort_ascending xs = sort_ascending ys.
Proof.
  intros Hp. apply sort_ascending_unique.
  - apply Sorted_merge_sort; apply _.
  - by rewrite sort_ascending_Permutation.
Qed.

Lemma slice0_lowest n xs x y :
  x ∈ slice0 n (sort_ascending xs) -> y ∈ drop n (sort_ascending xs) -> x ≤ y.
Proof.
  intros Hx Hy. unfold slice0 in Hx.
  apply (StronglySorted_app_1_elem_of Qcle (take n (sort_ascending xs))
           (drop n (sort_ascending xs))); [|done..].
  rewrite take_drop. apply sort_ascending_Sorted.
Qed.

Lemma numberOfScoresToUse_stepTable n :
  (1 ≤ n)%nat -> stepTable n = Some (Handicap.numberOfScoresToUse n).
Proof.
  intros Hn. unfold stepTable, Handicap.numberOfScoresToUse.
  repeat case_decide; try reflexivity; lia.
Qed.

Lemma numberOfScoresToUse_bounds n :
  (1 ≤ n)%nat -> (1 ≤ Handicap.numberOfScoresToUse n ≤ n)%nat.
Proof. intros Hn. unfold Handicap.numberOfScoresToUse. repeat case_decide; lia. Qed.

Lemma bestDifferentials_length xs :
  xs ≠ [] -> length (Handicap.bestDifferentials xs) = Handicap.numberOfScoresToUse (length xs).
Proof.
  intros Hne. unfold Handicap.bestDifferentials, slice0, Handicap.sortedDifferentials.
  rewrite length_take, sort_ascending_length.
  assert (1 ≤ length xs)%nat by (destruct xs; [done | cbn [length]; lia]).
  pose proof (numberOfScoresToUse_bounds (length xs)). lia.
Qed.








(** ** Rounding to one decimal *)
Lemma ten_pos : 0 < int 10.
Proof. reflexivity. Qed.


Lemma Math_round_half k : Math_round (int k + dec 1 2) = int (k + 1).
Proof.
  unfold Math_round. f_equal.
  replace (int k + dec 1 2 + dec 1 2) with (int (k + 1)).
  - apply floorZ_int.
  - rewrite int_add, <- half_half. ring.
Qed.


Lemma tenth_bounds x :
  x - dec 1 20 < Math_round (x * int 10) / int 10
  ∧ Math_round (x * int 10) / int 10 ≤ x + dec 1 20.
Proof.
  destruct (Math_round_bounds (x * int 10)) as [H1 H2]. split.
  - apply (Qcmult_lt_mono_pos_r _ _ (int 10)); [apply ten_pos|].
    replace (Math_round (x * int 10) / int 10 * int 10)
      with (Math_round (x * int 10)) by (field; discriminate).
    replace ((x - dec 1 20) * int 10) with (x * int 10 - dec 1 2); [done|].
    replace (dec 1 2) with (dec 1 20 * int 10) by (by apply Qc_is_canon). ring.
  - apply Qcle_div_l; [apply ten_pos|].
    replace ((x + dec 1 20) * int 10) with (x * int 10 + dec 1 2); [done|].
    replace (dec 1 2) with (dec 1 20 * int 10) by (by apply Qc_is_canon). ring.
Qed.


Lemma tenth_54 : Math_round (int 54 * int 10) / int 10 = int 54.
Proof. by apply Qc_is_canon. Qed.





(** * The score differential *)

Lemma int_neq a b : a ≠ b -> int a ≠ int b.
Proof. intros H E. by apply H, int_inj. Qed.

Lemma differential_18 s r slope :
  calculateScoreDifferential s r slope (Some (int 18))
  = ((s - r) * int 113) / slope.
Proof.
  unfold calculateScoreDifferential. cbn [default from_option id].
  case_decide as H; [|done]. exfalso. revert H. by apply int_neq.
Qed.

Lemma differential_default s r slope :
  calculateScoreDifferential s r slope None
  = calculateScoreDifferential s r slope (Some (int 18)).
Proof. reflexivity. Qed.

Lemma differential_9 s r slope :
  calculateScoreDifferential s r slope (Some (int 9))
  = ((s * int 2 - r * int 2) * int 113) / slope.
Proof.
  unfold calculateScoreDifferential. cbn [default from_option id].
  by rewrite decide_True.
Qed.

(** Nine holes are eighteen holes with the score and the rating doubled,
    whatever the arguments. *)
Lemma differential_9_as_18 s r slope :
  calculateScoreDifferential s r slope (Some (int 9))
  = calculateScoreDifferential (int 2 * s) (int 2 * r) slope (Some (int 18)).
Proof.
  rewrite differential_9, differential_18. do 2 f_equal. ring.
Qed.

(** * The rounds a handicap is computed from *)

Global Instance by_date_trans : Transitive by_date.
Proof. intros x y z. unfold by_date. apply transitivity. Qed.

Global Instance by_date_total : Total by_date.
Proof. intros x y. unfold by_date. apply total, _. Qed.

Lemma filter_expression_none q (l : list Round) :
  query_courseId q = None -> filter (filter_expression q) l = l.
Proof.
  intros Hq. induction l as [|r l IH]; [done|].
  rewrite filter_cons_True, IH; [done|].
  unfold filter_expression. by rewrite Hq.
Qed.

Lemma latest_rounds_take userId tbl :
  index_scan (latest_rounds_query userId) tbl
  = take 20 (index_scan (rounds_by_recency userId) tbl).
Proof.
  unfold index_scan. rewrite !filter_expression_none by done.
  reflexivity.
Qed.

Lemma rounds_by_recency_sorted userId tbl :
  StronglySorted (flip by_date) (index_scan (rounds_by_recency userId) tbl).
Proof.
  unfold index_scan. rewrite filter_expression_none by done.
  cbn [ScanIndexForward Limit rounds_by_recency].
  apply Sorted_StronglySorted; [apply _|].
  apply Sorted_reverse, Sorted_merge_sort; apply _.
Qed.

Lemma rounds_by_recency_elem userId tbl r :
  r ∈ index_scan (rounds_by_recency userId) tbl
  <-> round_userId r = userId ∧ ∃ k, tbl !! k = Some r.
Proof.
  unfold index_scan. rewrite filter_expression_none by done.
  cbn [ScanIndexForward Limit rounds_by_recency].
  rewrite elem_of_reverse, merge_sort_Permutation, list_elem_of_filter.
  unfold key_condition. cbn [query_userId query_date].
  rewrite list_elem_of_fmap. split.
  - intros [[? _] [[k r'] [-> Hk]]]. split; [done|]. exists k.
    by apply elem_of_map_to_list in Hk.
  - intros [? [k Hk]]. split; [done|]. exists (k, r). split; [done|].
    by apply elem_of_map_to_list.
Qed.


(** C1. When the player has rounds (the available ones are those of the
    table with the player's id), the query returns the 20 most recent of
    them (all of them when there are fewer), every returned round being at
    least as recent as every round left out; with roundCount the minimum
    of 20 and the number of rounds available, the number of scores used is
    the one the step table gives for roundCount, and the differentials
    averaged are exactly that many, the lowest of the returned ones. *)
Theorem handicap_uses_step_table (tbl : gmap string Round) (userId : string) :
  let available := index_scan (rounds_by_recency userId) tbl in
  let rounds := index_scan (latest_rounds_query userId) tbl in
  let differentials := round_scoreDifferential <$> rounds in
  let roundCount := (20 `min` length available)%nat in
  let used := Handicap.bestDifferentials differentials in
  let unused :=
    drop (Handicap.numberOfScoresToUse (length rounds))
         (Handicap.sortedDifferentials differentials) in
  available ≠ [] ->
  (∀ r, r ∈ available <-> round_userId r = userId ∧ ∃ id, tbl !! id = Some r)
  ∧ rounds = take 20 available
  ∧ (∀ r r', r ∈ rounds -> r' ∈ drop 20 available -> by_date r' r)
  ∧ length rounds = roundCount
  ∧ stepTable roundCount = Some (Handicap.numberOfScoresToUse (length rounds))
  ∧ stepTable roundCount = Some (length used)
  ∧ used ++ unused ≡ₚ differentials
  ∧ (∀ x y, x ∈ used -> y ∈ unused -> x ≤ y)
  ∧ Handicap.averageDifferential differentials = sum used / len used.
Proof.
  intros available rounds differentials roundCount used unused Hne.
  assert (rounds = take 20 available) as Hrounds by apply latest_rounds_take.
  assert (length rounds = roundCount) as Hlen
    by (rewrite Hrounds; apply length_take).
  assert (1 ≤ length rounds)%nat as Hpos.
  { rewrite Hlen. unfold roundCount.
    destruct available; [done | cbn [length]; lia]. }
  assert (differentials ≠ []) as Hdiffs.
  { unfold differentials. destruct rounds; [cbn [length] in Hpos; lia | done]. }
  assert (length differentials = length rounds) as Hmap
    by apply length_fmap.
  repeat apply conj.
  - intros r. apply rounds_by_recency_elem.
  - done.
  - intros r r' Hr Hr'. rewrite Hrounds in Hr.
    apply (StronglySorted_app_1_elem_of (flip by_date) (take 20 available)
             (drop 20 available)); [|done..].
    rewrite take_drop. apply rounds_by_recency_sorted.
  - done.
  - rewrite <- Hlen. by apply numberOfScoresToUse_stepTable.
  - rewrite <- Hlen. unfold used.
    rewrite bestDifferentials_length, Hmap by done.
    by apply numberOfScoresToUse_stepTable.
  - unfold used, unused, Handicap.bestDifferentials, slice0.
    rewrite Hmap, take_drop. apply sort_ascending_Permutation.
  - intros x y Hx Hy. unfold used, Handicap.bestDifferentials in Hx.
    rewrite Hmap in Hx. by eapply slice0_lowest.
  - done.
Qed.

Lemma handicap_uses_step_table_witness :
  stepTable (20 `min` length (index_scan (rounds_by_recency "kari") sample_rounds))
  = Some (length (Handicap.bestDifferentials
                    (round_scoreDifferential
                       <$> index_scan (latest_rounds_query "kari") sample_rounds))).
Proof.
  assert (index_scan (rounds_by_recency "kari") sample_rounds ≠ []) as H
    by (vm_compute; discriminate).
  exact (proj1 (proj2 (proj2 (proj2 (proj2 (proj2
    (handicap_uses_step_table sample_rounds "kari" H))))))).
Defined.

(** Of the 21 sample rounds the oldest, although the best, is left out, and
    the 8 lowest differentials of the other 20 are used. *)
Example sample_rounds_used :
  length (index_scan (rounds_by_recency "kari") sample_rounds) = 21%nat
  ∧ Handicap.bestDifferentials
      (round_scoreDifferential
         <$> index_scan (latest_rounds_query "kari") sample_rounds)
    = int <$> [2; 3; 4; 5; 6; 7; 8; 9]%Z.
Proof. split; [by vm_compute|]. vm_compute. reflexivity. Qed.

(** * What [updateUserHandicap] does *)

(** The run of [updateUserHandicap], outcome by outcome of the two
    commands it sends. *)
Lemma updateUserHandicap_run env userId w :
  updateUserHandicap env userId w =
    let q := QueryCommand (latest_rounds_query userId) in
    let rounds := index_scan (latest_rounds_query userId) (rounds_table w) in
    let differentials := round_scoreDifferential <$> rounds in
    let handicap := Handicap.computeHandicap differentials in
    let u := UpdateCommand userId handicap (now env) in
    if throws env q
    then (add_log (LogError "Error updating handicap:" (StorageError q)) w, Ok tt)
    else if throws env u
    then (add_log (LogError "Error updating handicap:" (StorageError u)) w, Ok tt)
    else
      let w' :=
        set_users <[userId := {| user_handicap := handicap;
                                 user_updatedAt := now env |}]> w in
      if decide (length rounds = 0%nat) then (w', Ok tt)
      else (add_log (LogHandicapUpdated userId
                       (Handicap.newHandicap differentials) (length rounds)) w',
            Ok tt).
Proof.
  cbv zeta. unfold updateUserHandicap, try_catch, bind, send_query, send.
  destruct (throws env (QueryCommand _)) eqn:Hq; [done|].
  unfold gets, Handicap.computeHandicap. rewrite length_fmap.
  case_decide as Hlen.
  - unfold send_update, send, bind.
    destruct (throws env (UpdateCommand _ _ _)); done.
  - unfold send_update, send, bind.
    destruct (throws env (UpdateCommand _ _ _)); done.
Qed.


Lemma updateUserHandicap_stores env userId w :
  (∀ c, throws env c = false) ->
  stored_handicap userId (updateUserHandicap env userId w).1
  = Some (Handicap.computeHandicap
            (round_scoreDifferential
               <$> index_scan (latest_rounds_query userId) (rounds_table w))).
Proof.
  intros Hok. rewrite updateUserHandicap_run. cbv zeta. rewrite !Hok.
  unfold stored_handicap.
  case_decide; cbn [fst users_table set_users add_log];
    by rewrite lookup_insert_eq.
Qed.

Lemma updateUserHandicap_rounds env userId w :
  rounds_table (updateUserHandicap env userId w).1 = rounds_table w.
Proof.
  rewrite updateUserHandicap_run. cbv zeta.
  destruct (throws env _); [done|].
  destruct (throws env _); [done|].
  by case_decide.
Qed.

(** * The handicap as a function of the differentials *)

(** C3. Without rounds the handicap is exactly 54: the computation returns
    54 on the empty list, without a look at the step table, and
    [updateUserHandicap], when the store answers and the query finds no
    round, writes 54 to the user. *)
Theorem no_rounds_handicap_54 (env : Env) (userId : string) (w : World) :
  (∀ c, throws env c = false) ->
  index_scan (latest_rounds_query userId) (rounds_table w) = [] ->
  Handicap.computeHandicap [] = int 54
  ∧ stored_handicap userId (updateUserHandicap env userId w).1 = Some (int 54).
Proof.
  intros Hok Hnone. split; [reflexivity|].
  rewrite updateUserHandicap_stores, Hnone by done. reflexivity.
Qed.

Lemma no_rounds_handicap_54_witness :
  Handicap.computeHandicap [] = int 54
  ∧ stored_handicap "kari" (updateUserHandicap reliable "kari" new_player_world).1
    = Some (int 54).
Proof.
  apply (no_rounds_handicap_54 reliable "kari" new_player_world).
  - intros c. reflexivity.
  - vm_compute. reflexivity.
Defined.








Lemma twentieth_ten : dec 1 20 * int 10 = dec 1 2.
Proof. apply Qc_is_canon. reflexivity. Qed.

Lemma computeHandicap_perm xs ys :
  xs ≡ₚ ys -> Handicap.computeHandicap xs = Handicap.computeHandicap ys.
Proof.
  intros Hp.
  unfold Handicap.computeHandicap, Handicap.newHandicap,
    Handicap.averageDifferential, Handicap.bestDifferentials,
    Handicap.sortedDifferentials.
  by rewrite (sort_ascending_perm xs ys Hp), (Permutation_length Hp).
Qed.

(** C9. The handicap of a list of at most 20 differentials is the handicap
    of any reordering of it, also when the window of 20 is applied to the
    list: the differentials are sorted before the best are taken. *)
Theorem computeHandicap_order_irrelevant (differentials reordered : list number) :
  (length differentials ≤ 20)%nat ->
  differentials ≡ₚ reordered ->
  Handicap.computeHandicap differentials = Handicap.computeHandicap reordered
  ∧ Handicap.computeHandicap (take 20 differentials)
    = Handicap.computeHandicap (take 20 reordered).
Proof.
  intros Hlen Hp. split; [by apply computeHandicap_perm|].
  rewrite !take_ge; [by apply computeHandicap_perm | | done].
  by rewrite <- (Permutation_length Hp).
Qed.

Lemma computeHandicap_order_irrelevant_witness :
  Handicap.computeHandicap [int 15; int 5; int 10]
  = Handicap.computeHandicap [int 5; int 10; int 15]
  ∧ Handicap.computeHandicap (take 20 [int 15; int 5; int 10])
    = Handicap.computeHandicap (take 20 [int 5; int 10; int 15]).
Proof.
  apply computeHandicap_order_irrelevant.
  - cbn [length]. lia.
  - apply (Permutation_cons_append [int 5; int 10] (int 15)).
Defined.

(** * The handicap written to the user *)

(** C8. The handicap [updateUserHandicap] writes is a function of the
    differentials of the rounds the query returns and of nothing else: it is
    [computeHandicap] of them, two runs in worlds (with other users, logs,
    clocks and identifiers) whose queries return the same differentials
    write the same handicap, and a second run writes the handicap of the
    first. *)
Theorem computeHandicap_deterministic
    (env1 env2 : Env) (userId : string) (w1 w2 : World) :
  (∀ c, throws env1 c = false) ->
  (∀ c, throws env2 c = false) ->
  round_scoreDifferential
    <$> index_scan (latest_rounds_query userId) (rounds_table w1)
  = round_scoreDifferential
    <$> index_scan (latest_rounds_query userId) (rounds_table w2) ->
  let w1' := (updateUserHandicap env1 userId w1).1 in
  let w2' := (updateUserHandicap env2 userId w2).1 in
  stored_handicap userId w1'
  = Some (Handicap.computeHandicap
            (round_scoreDifferential
               <$> index_scan (latest_rounds_query userId) (rounds_table w1)))
  ∧ stored_handicap userId w1' = stored_handicap userId w2'
  ∧ stored_handicap userId (updateUserHandicap env1 userId w1').1
    = stored_handicap userId w1'
  ∧ stored_handicap userId (updateUserHandicap env2 userId w1').1
    = stored_handicap userId w1'.
Proof.
  intros Hok1 Hok2 Hsame w1' w2'. unfold w1', w2'.
  rewrite !updateUserHandicap_stores, !updateUserHandicap_rounds by assumption.
  rewrite Hsame. repeat apply conj; reflexivity.
Qed.

Lemma computeHandicap_deterministic_witness :
  stored_handicap "kari" (updateUserHandicap reliable "kari" sample_world).1
  = stored_handicap "kari"
      (updateUserHandicap reliable "kari" returning_player_world).1.
Proof.
  assert (∀ c, throws reliable c = false) as Hok by (intros c; reflexivity).
  exact (proj1 (proj2
    (computeHandicap_deterministic reliable reliable "kari" sample_world
       returning_player_world Hok Hok eq_refl))).
Defined.

(** * The handicap history *)

Lemma int_mul a b : int (a * b) = int a * int b.
Proof.
  apply Qc_is_canon.
  change (inject_Z (a * b) == Qred (inject_Z a * inject_Z b))%Q.
  rewrite Qred_correct, inject_Z_mult. reflexivity.
Qed.

Lemma four_tenths_ten x : x * dec 4 10 * int 10 = x * int 4.
Proof.
  replace (int 4) with (dec 4 10 * int 10) by (apply Qc_is_canon; reflexivity).
  ring.
Qed.

Lemma floor_four_tenths (n : nat) :
  floorZ (int (Z.of_nat n) * dec 4 10) = (Z.of_nat n * 4 / 10)%Z.
Proof.
  pose proof (Z.div_mod (Z.of_nat n * 4) 10 ltac:(lia)) as Hdiv.
  pose proof (Z.mod_pos_bound (Z.of_nat n * 4) 10 ltac:(lia)) as Hmod.
  apply floorZ_unique.
  - apply (Qcmult_le_mono_pos_r _ _ (int 10)); [apply ten_pos|].
    rewrite four_tenths_ten, <- !int_mul. apply (proj1 (int_le _ _)). lia.
  - apply (Qcmult_lt_mono_pos_r _ _ (int 10)); [apply ten_pos|].
    rewrite four_tenths_ten, <- !int_mul. apply (proj1 (int_lt _ _)). lia.
Qed.

Lemma countToUse_historyCount n :
  (3 ≤ n)%nat -> historyCount n = Some (History.countToUse n).
Proof.
  intros Hn. unfold historyCount, History.countToUse.
  repeat case_decide; try reflexivity; try lia.
  f_equal. rewrite floor_four_tenths.
  rewrite <- (Nat2Z.id (n * 4 / 10)). f_equal.
  rewrite Nat2Z.inj_div, Nat2Z.inj_mul. reflexivity.
Qed.

Lemma countToUse_bounds n :
  (3 ≤ n)%nat -> (1 ≤ History.countToUse n ≤ n)%nat.
Proof.
  intros Hn. pose proof (countToUse_historyCount n Hn) as H.
  unfold historyCount in H. repeat case_decide; simplify_eq; try lia.
  rewrite <- H.
  pose proof (Nat.div_mod (n * 4) 10 ltac:(lia)).
  pose proof (Nat.mod_upper_bound (n * 4) 10 ltac:(lia)). lia.
Qed.

Lemma bestDiffs_length xs :
  (3 ≤ length xs)%nat -> length (History.bestDiffs xs) = History.countToUse (length xs).
Proof.
  intros Hn. unfold History.bestDiffs, History.sortedDiffs, slice0.
  rewrite length_take, sort_ascending_length.
  pose proof (countToUse_bounds (length xs) Hn). lia.
Qed.

Lemma history_handicap_short xs :
  (length xs < 3)%nat ->
  History.handicap xs = int 54 ∧ History.entryHandicap xs = int 54.
Proof.
  intros Hn. unfold History.entryHandicap, History.handicap.
  rewrite decide_False by lia. split; [reflexivity | apply tenth_54].
Qed.




Lemma handicapHistory_lookup rounds i :
  handicapHistory rounds !! i
  = (λ round,
       {| entry_date := round_date round;
          entry_handicap :=
            History.entryHandicap (round_scoreDifferential <$> take (i + 1) rounds);
          entry_scoreDifferential := round_scoreDifferential round |})
      <$> rounds !! i.
Proof. unfold handicapHistory. by rewrite list_lookup_imap. Qed.

(** The rounds of [getHandicapHistory] come in chronological order. *)
Lemma all_rounds_chronological userId tbl :
  Sorted by_date (index_scan (all_rounds_query userId) tbl).
Proof.
  unfold index_scan. rewrite filter_expression_none by done.
  cbn [ScanIndexForward Limit all_rounds_query].
  apply Sorted_merge_sort; apply _.
Qed.

Lemma getHandicapHistory_run env userId w :
  getHandicapHistory env userId w =
    let q := QueryCommand (all_rounds_query userId) in
    if throws env q
    then (add_log (LogError "Get handicap history error:" (StorageError q)) w,
          Ok {| status := 500;
                json := Message "Kunne ikke hente handicap-historikk" |})
    else (w, Ok {| status := 200;
                   json := HistoryJson
                             (handicapHistory
                                (index_scan (all_rounds_query userId)
                                            (rounds_table w))) |}).
Proof.
  cbv zeta. unfold getHandicapHistory, try_catch, bind, send_query, send.
  by destruct (throws env (QueryCommand _)).
Qed.

(** The third entry of the history of the sample rounds: the best of the
    differentials 1, 2, 3 times 0.96, to one decimal. *)
Example sample_history_third :
  (λ entry, this (entry_handicap entry))
    <$> handicapHistory (index_scan (all_rounds_query "kari") sample_rounds) !! 2%nat
  = Some 1%Q.
Proof. vm_compute. reflexivity. Qed.


(** * Failures of the handicap update *)

Lemma updateUserHandicap_returns env userId w :
  ∃ w', updateUserHandicap env userId w = (w', Ok tt) ∧ same_store w' w.
Proof.
  rewrite updateUserHandicap_run. cbv zeta.
  destruct (throws env _); [by eexists|].
  destruct (throws env _); [by eexists|].
  case_decide; by eexists.
Qed.

Lemma same_store_trans w1 w2 w3 : same_store w1 w2 -> same_store w2 w3 -> same_store w1 w3.
Proof. unfold same_store. intros (?&?&?) (?&?&?). repeat split; congruence. Qed.

Lemma same_store_refl w : same_store w w.
Proof. done. Qed.

Lemma same_store_sym w1 w2 : same_store w1 w2 -> same_store w2 w1.
Proof. unfold same_store. intros (?&?&?). repeat split; congruence. Qed.

Lemma agree_ret {A} (a : A) : agree (ret a) (ret a).
Proof. by intros w1 w2 Hw. Qed.

Lemma agree_throw {A} e : agree (@throw A e) (throw e).
Proof. by intros w1 w2 Hw. Qed.

Lemma agree_gets {A} (f : World → A) :
  (∀ w1 w2, same_store w1 w2 -> f w1 = f w2) -> agree (gets f) (gets f).
Proof. intros Hf w1 w2 Hw. cbn. split; [f_equal; by apply Hf | done]. Qed.

Lemma agree_modify (g : World → World) :
  (∀ w1 w2, same_store w1 w2 -> same_store (g w1) (g w2)) ->
  agree (modify g) (modify g).
Proof. intros Hg w1 w2 Hw. cbn. split; [done | by apply Hg]. Qed.

Lemma agree_bind {A B} (m1 m2 : M A) (k1 k2 : A → M B) :
  agree m1 m2 -> (∀ a, agree (k1 a) (k2 a)) -> agree (bind m1 k1) (bind m2 k2).
Proof.
  intros Hm Hk w1 w2 Hw. unfold bind. destruct (Hm w1 w2 Hw) as [Hres Hst].
  destruct (m1 w1) as [w1' r1], (m2 w2) as [w2' r2].
  cbn [fst snd] in Hres, Hst. subst r2.
  destruct r1 as [a|e]; [by apply Hk | done].
Qed.

Lemma agree_try_catch {A} (m1 m2 : M A) (h1 h2 : Error → M A) :
  agree m1 m2 -> (∀ e, agree (h1 e) (h2 e)) ->
  agree (try_catch m1 h1) (try_catch m2 h2).
Proof.
  intros Hm Hh w1 w2 Hw. unfold try_catch.
  destruct (Hm w1 w2 Hw) as [Hres Hst].
  destruct (m1 w1) as [w1' r1], (m2 w2) as [w2' r2].
  cbn [fst snd] in Hres, Hst. subst r2.
  destruct r1 as [a|e]; [done | by apply Hh].
Qed.

Lemma agree_promise_all {A B} (f1 f2 : A → M B) (xs : list A) :
  (∀ x, agree (f1 x) (f2 x)) ->
  agree (promise_all (f1 <$> xs)) (promise_all (f2 <$> xs)).
Proof.
  intros Hf. induction xs as [|x xs IH]; intros w1 w2 Hw; [done|].
  cbn [fmap list_fmap promise_all].
  destruct (Hf x w1 w2 Hw) as [Hres Hst].
  destruct (f1 x w1) as [w1' r1], (f2 x w2) as [w2' r2].
  cbn [fst snd] in Hres, Hst. subst r2.
  destruct (IH w1' w2' Hst) as [Hres' Hst'].
  change (list_fmap A (M B) f1 xs) with (f1 <$> xs).
  change (list_fmap A (M B) f2 xs) with (f2 <$> xs).
  destruct (promise_all (f1 <$> xs) w1') as [w1'' rs1],
           (promise_all (f2 <$> xs) w2') as [w2'' rs2].
  cbn [fst snd] in Hres', Hst' |- *. subst rs2. done.
Qed.

Lemma agree_send {A} env (c : Command) (answer : M A) :
  agree answer answer -> agree (send env c answer) (send env c answer).
Proof. intros H. unfold send. destruct (throws env c); [apply agree_throw | done]. Qed.

Lemma agree_logger l : agree (logger l) (logger l).
Proof. apply agree_modify. by intros w1 w2 (?&?&?). Qed.

Lemma agree_send_get_round env key :
  agree (send_get_round env key) (send_get_round env key).
Proof. apply agree_send, agree_gets. by intros w1 w2 (-> & _). Qed.

Lemma agree_send_query env q : agree (send_query env q) (send_query env q).
Proof. apply agree_send, agree_gets. by intros w1 w2 (-> & _). Qed.

Lemma agree_send_delete env key : agree (send_delete env key) (send_delete env key).
Proof.
  apply agree_send, agree_modify. intros w1 w2 (Hr & Hc & Hu).
  unfold same_store, set_rounds. cbn. by rewrite Hr.
Qed.

Lemma agree_send_get_course env key :
  agree (send_get_course env key) (send_get_course env key).
Proof. apply agree_send, agree_gets. by intros w1 w2 (_ & -> & _). Qed.

Lemma agree_send_put env item : agree (send_put env item) (send_put env item).
Proof.
  apply agree_send, agree_modify. intros w1 w2 (Hr & Hc & Hu).
  unfold same_store, set_rounds. cbn. by rewrite Hr.
Qed.

Lemma agree_uuidv4 env : agree (uuidv4 env) (uuidv4 env).
Proof.
  intros w1 w2 (Hr & Hc & Hu). unfold uuidv4, same_store. cbn.
  by rewrite Hr, Hc, Hu.
Qed.

Lemma agree_for_of {A S} (xs : list A) (body1 body2 : S → A → M S) :
  (∀ acc x, agree (body1 acc x) (body2 acc x)) ->
  ∀ acc, agree (for_of xs acc body1) (for_of xs acc body2).
Proof.
  intros Hbody. induction xs as [|x xs IH]; intros acc; [apply agree_ret|].
  cbn [for_of]. apply agree_bind; [apply Hbody | apply IH].
Qed.

(** ** The handlers under a faulty handicap update *)

Section Faults.

Variable env : Env.
Variable faults : Command → bool.

Lemma agree_updateUserHandicap userId :
  agree (updateUserHandicap (with_handicap_faults faults env) userId)
        (updateUserHandicap env userId).
Proof.
  intros w1 w2 Hw.
  destruct (updateUserHandicap_returns (with_handicap_faults faults env) userId w1)
    as (w1' & -> & H1).
  destruct (updateUserHandicap_returns env userId w2) as (w2' & -> & H2).
  split; [done|]. cbn [fst].
  eapply same_store_trans; [exact H1|].
  eapply same_store_trans; [exact Hw|]. by apply same_store_sym.
Qed.

Lemma agree_createRound userId roundData :
  agree (createRound (with_handicap_faults faults env) userId roundData)
        (createRound env userId roundData).
Proof.
  unfold createRound.
  change (send_get_course (with_handicap_faults faults env))
    with (send_get_course env).
  change (uuidv4 (with_handicap_faults faults env)) with (uuidv4 env).
  change (now (with_handicap_faults faults env)) with (now env).
  change (send_put (with_handicap_faults faults env)) with (send_put env).
  apply agree_try_catch.
  2:{ intros e. apply agree_bind; [apply agree_logger | intros _; apply agree_ret]. }
  apply agree_bind; [apply agree_send_get_course|].
  intros [course|]; [|apply agree_ret].
  apply agree_bind; [apply agree_uuidv4|]. intros roundId.
  apply agree_bind; [apply agree_send_put|]. intros _.
  apply agree_bind; [|intros _; apply agree_ret].
  case_decide; [apply agree_ret | apply agree_updateUserHandicap].
Qed.

Lemma agree_createPlayerRound roundData playerIds courseRating
    slopeRating timestamp createdRounds playerScore :
  agree (createPlayerRound (with_handicap_faults faults env) roundData playerIds
           courseRating slopeRating timestamp createdRounds playerScore)
        (createPlayerRound env roundData playerIds courseRating slopeRating
           timestamp createdRounds playerScore).
Proof.
  unfold createPlayerRound.
  change (uuidv4 (with_handicap_faults faults env)) with (uuidv4 env).
  change (send_put (with_handicap_faults faults env)) with (send_put env).
  apply agree_bind; [apply agree_uuidv4|]. intros roundId.
  apply agree_bind; [apply agree_send_put|]. intros _.
  apply agree_bind; [apply agree_updateUserHandicap|]. intros _.
  apply agree_ret.
Qed.

(** The checks of [createMultiPlayerRound] read the users, before any
    handicap is written; the loop that follows agrees. *)
Lemma createMultiPlayerRound_independent requestingUserId roundData w :
  (createMultiPlayerRound (with_handicap_faults faults env)
     requestingUserId roundData w).2
  = (createMultiPlayerRound env requestingUserId roundData w).2
  ∧ same_store
      (createMultiPlayerRound (with_handicap_faults faults env)
         requestingUserId roundData w).1
      (createMultiPlayerRound env requestingUserId roundData w).1.
Proof.
  unfold createMultiPlayerRound, try_catch, bind.
  case_decide; [|done].
  change (send_get_user (with_handicap_faults faults env))
    with (send_get_user env).
  match goal with |- context [promise_all ?ps w] =>
    destruct (promise_all ps w) as [w1 [playerChecks|e]]; [|done] end.
  case_decide; [done|].
  change (send_get_course (with_handicap_faults faults env))
    with (send_get_course env).
  change (now (with_handicap_faults faults env)) with (now env).
  destruct (send_get_course env (multi_courseId roundData) w1)
    as [w2 [[course|]|e]]; [|done..].
  match goal with
  | |- context [for_of ?xs ?acc (createPlayerRound env ?rd ?ids ?cr ?sr ?ts) w2] =>
      destruct (agree_for_of xs
                  (createPlayerRound (with_handicap_faults faults env)
                     rd ids cr sr ts)
                  (createPlayerRound env rd ids cr sr ts)
                  ltac:(intros; apply agree_createPlayerRound)
                  acc w2 w2 (same_store_refl w2)) as [Hres Hst];
      destruct (for_of xs acc
                  (createPlayerRound (with_handicap_faults faults env)
                     rd ids cr sr ts) w2) as [w3 r3];
      destruct (for_of xs acc (createPlayerRound env rd ids cr sr ts) w2)
        as [w4 r4]
  end.
  cbn [fst snd] in Hres, Hst. subst r4.
  destruct r3 as [createdRounds|e]; [done|].
  cbn. by destruct Hst as (? & ? & ?).
Qed.

Lemma agree_deleteRound userId id :
  agree (deleteRound (with_handicap_faults faults env) userId id)
        (deleteRound env userId id).
Proof.
  unfold deleteRound.
  change (send_get_round (with_handicap_faults faults env))
    with (send_get_round env).
  change (send_delete (with_handicap_faults faults env)) with (send_delete env).
  apply agree_try_catch.
  2:{ intros e. apply agree_bind; [apply agree_logger | intros _; apply agree_ret]. }
  apply agree_bind; [apply agree_send_get_round|].
  intros [round|]; [|apply agree_ret].
  case_decide; [|apply agree_ret].
  change (λ playerId,
            send_query (with_handicap_faults faults env)
              (related_rounds_query playerId (round_date round)
                 (round_courseId round)))
    with (λ playerId,
            send_query env
              (related_rounds_query playerId (round_date round)
                 (round_courseId round))).
  apply agree_bind.
  { case_decide; [|apply agree_ret].
    apply agree_bind; [|intros; apply agree_ret].
    apply agree_promise_all. intros p. apply agree_send_query. }
  intros relatedRounds. apply agree_bind.
  { apply agree_promise_all. intros r. apply agree_send_delete. }
  intros _. apply agree_bind; [|intros _; apply agree_ret].
  apply agree_promise_all. intros u. apply agree_updateUserHandicap.
Qed.

(** C7. [updateUserHandicap] always returns normally and leaves the rounds
    as they are; when one of its two commands throws, the error is logged
    and the user is left as it was.  Hence the response and the table of
    rounds of [createRound], [createMultiPlayerRound] and [deleteRound] are
    the same whatever the commands of the handicap update do: the handlers
    succeed or fail as they would with any other behaviour of these
    commands. *)
Theorem handicap_failure_never_propagates (w : World) :
  (∀ userId,
     (updateUserHandicap env userId w).2 = Ok tt
     ∧ rounds_table (updateUserHandicap env userId w).1 = rounds_table w
     ∧ (∀ c, c = QueryCommand (latest_rounds_query userId)
             ∨ (throws env (QueryCommand (latest_rounds_query userId)) = false
                ∧ ∃ handicap, c = UpdateCommand userId handicap (now env)
                    ∧ handicap = Handicap.computeHandicap
                        (round_scoreDifferential
                           <$> index_scan (latest_rounds_query userId)
                                 (rounds_table w))) ->
             throws env c = true ->
             users_table (updateUserHandicap env userId w).1 = users_table w
             ∧ log (updateUserHandicap env userId w).1
               = log w ++ [LogError "Error updating handicap:" (StorageError c)]))
  ∧ (∀ userId roundData,
       (createRound (with_handicap_faults faults env) userId roundData w).2
       = (createRound env userId roundData w).2
       ∧ rounds_table
           (createRound (with_handicap_faults faults env) userId roundData w).1
         = rounds_table (createRound env userId roundData w).1)
  ∧ (∀ requestingUserId roundData,
       (createMultiPlayerRound (with_handicap_faults faults env)
          requestingUserId roundData w).2
       = (createMultiPlayerRound env requestingUserId roundData w).2
       ∧ rounds_table
           (createMultiPlayerRound (with_handicap_faults faults env)
              requestingUserId roundData w).1
         = rounds_table
             (createMultiPlayerRound env requestingUserId roundData w).1)
  ∧ (∀ userId id,
       (deleteRound (with_handicap_faults faults env) userId id w).2
       = (deleteRound env userId id w).2
       ∧ rounds_table (deleteRound (with_handicap_faults faults env) userId id w).1
         = rounds_table (deleteRound env userId id w).1).
Proof.
  repeat apply conj.
  - intros userId. repeat apply conj.
    + by destruct (updateUserHandicap_returns env userId w) as (w' & -> & _).
    + destruct (updateUserHandicap_returns env userId w) as (w' & -> & Hr & _).
      exact Hr.
    + intros c Hc Hthrows. rewrite updateUserHandicap_run. cbv zeta.
      destruct Hc as [->|(Hq & handicap & -> & ->)].
      * by rewrite Hthrows.
      * by rewrite Hq, Hthrows.
  - intros userId roundData.
    destruct (agree_createRound userId roundData w w
                (same_store_refl w)) as (? & ? & _). done.
  - intros requestingUserId roundData.
    destruct (createMultiPlayerRound_independent requestingUserId
                roundData w) as (? & ? & _). done.
  - intros userId id.
    destruct (agree_deleteRound userId id w w (same_store_refl w))
      as (? & ? & _). done.
Qed.

End Faults.

(** With a store that rejects every command of the handicap update, the
    round is created all the same: 201, the round in the table, one line in
    the log and no handicap written. *)
Example createRound_despite_failed_update :
  let run := createRound (with_handicap_faults (λ _, true) reliable) "kari"
               sample_input course_world in
  (match run.2 with Ok response => Some (status response) | Throw _ => None end)
    = Some 201%nat
  ∧ round_date <$> rounds_table run.1 !! "uuid-0" = Some "2024-01-22"
  ∧ this <$> (round_scoreDifferential <$> rounds_table run.1 !! "uuid-0")
    = Some ((5311 # 320)%Q)
  ∧ users_table run.1 = ∅
  ∧ length (log run.1) = 1%nat.
Proof. vm_compute. repeat split. Qed.

(** With a store that rejects every command, the round is not created and
    the response is 500. *)
Example createRound_store_unreachable :
  let run := createRound unreachable "kari" sample_input course_world in
  run.2 = Ok {| status := 500; json := Message "Kunne ikke opprette runde" |}
  ∧ rounds_table run.1 = rounds_table course_world.
Proof. split; reflexivity. Qed.

(** * Further properties of the differential and the handicap *)








(** X3. More rounds never mean fewer scores used, in the handicap and in
    the history alike, and the number of scores used is between 1 and 8. *)
Theorem scores_used_monotone (n m : nat) :
  (n ≤ m)%nat ->
  (Handicap.numberOfScoresToUse n ≤ Handicap.numberOfScoresToUse m)%nat
  ∧ (History.countToUse n ≤ History.countToUse m)%nat
  ∧ (1 ≤ Handicap.numberOfScoresToUse n ≤ 8)%nat
  ∧ (1 ≤ History.countToUse n ≤ 8)%nat.
Proof.
  intros Hnm.
  assert (∀ k, History.countToUse k
               = if decide (20 ≤ k)%nat then 8%nat
                 else if decide (6 ≤ k)%nat then (k * 4 / 10)%nat else 1%nat)
    as Hcount.
  { intros k. unfold History.countToUse. repeat case_decide; try reflexivity.
    rewrite floor_four_tenths.
    rewrite <- (Nat2Z.id (k * 4 / 10)). f_equal.
    rewrite Nat2Z.inj_div, Nat2Z.inj_mul. reflexivity. }
  rewrite !Hcount. unfold Handicap.numberOfScoresToUse.
  pose proof (Nat.div_mod (n * 4) 10 ltac:(lia)).
  pose proof (Nat.mod_upper_bound (n * 4) 10 ltac:(lia)).
  pose proof (Nat.div_mod (m * 4) 10 ltac:(lia)).
  pose proof (Nat.mod_upper_bound (m * 4) 10 ltac:(lia)).
  repeat case_decide; lia.
Qed.

Lemma scores_used_monotone_witness :
  (Handicap.numberOfScoresToUse 11 ≤ Handicap.numberOfScoresToUse 12)%nat
  ∧ (History.countToUse 11 ≤ History.countToUse 12)%nat
  ∧ (1 ≤ Handicap.numberOfScoresToUse 11 ≤ 8)%nat
  ∧ (1 ≤ History.countToUse 11 ≤ 8)%nat.
Proof. apply scores_used_monotone. lia. Defined.










(** * The effects of [updateUserHandicap] and [createRound] *)

(** The run of [createRound], outcome by outcome. *)
Lemma createRound_run env userId roundData w :
  createRound env userId roundData w =
    let get := GetCommand COURSES (input_courseId roundData) in
    if throws env get
    then (add_log (LogError "Create round error:" (StorageError get)) w,
          Ok {| status := 500; json := Message "Kunne ikke opprette runde" |})
    else match courses_table w !! input_courseId roundData with
         | None => (w, Ok {| status := 404; json := Message "Golfbane ikke funnet" |})
         | Some course =>
             let round :=
               createdRound env userId roundData course (uuid env (uuids_drawn w)) in
             let put := PutCommand round in
             if throws env put
             then (add_log (LogError "Create round error:" (StorageError put))
                           (draw_uuid w),
                   Ok {| status := 500;
                         json := Message "Kunne ikke opprette runde" |})
             else
               let stored := set_rounds <[round_id round := round]> (draw_uuid w) in
               (if decide (userId = EmptyString) then stored
                else (updateUserHandicap env userId stored).1,
                Ok {| status := 201; json := RoundJson round |})
         end.
Proof.
  cbv zeta. unfold createRound, try_catch, bind, send_get_course, send.
  destruct (throws env (GetCommand _ _)); [done|].
  unfold gets. destruct (courses_table w !! _) as [course|]; [|done].
  unfold uuidv4, send_put, send. fold (draw_uuid w).
  fold (createdRound env userId roundData course (uuid env (uuids_drawn w))).
  destruct (throws env (PutCommand _)); [done|].
  unfold modify. case_decide; [done|].
  destruct (updateUserHandicap_returns env userId
              (set_rounds <[round_id (createdRound env userId roundData course
                                        (uuid env (uuids_drawn w))) :=
                              createdRound env userId roundData course
                                (uuid env (uuids_drawn w))]> (draw_uuid w)))
    as (w' & E & _).
  cbn [round_id createdRound] in E |- *. by rewrite E.
Qed.

Lemma updateUserHandicap_others env userId other w :
  other ≠ userId ->
  users_table (updateUserHandicap env userId w).1 !! other = users_table w !! other.
Proof.
  intros Hother. rewrite updateUserHandicap_run. cbv zeta.
  destruct (throws env _); [done|].
  destruct (throws env _); [done|].
  case_decide; cbn [fst users_table set_users add_log];
    by rewrite lookup_insert_ne.
Qed.

(** X6. Whatever the store does, [updateUserHandicap] leaves the rounds,
    the courses and every other user as they are; the user's item is either
    untouched or carries the handicap of the latest rounds, and the log
    grows by one line at most. *)
Theorem updateUserHandicap_only_this_user
    (env : Env) (userId : string) (w : World) :
  let w' := (updateUserHandicap env userId w).1 in
  rounds_table w' = rounds_table w
  ∧ courses_table w' = courses_table w
  ∧ uuids_drawn w' = uuids_drawn w
  ∧ (∀ other, other ≠ userId -> users_table w' !! other = users_table w !! other)
  ∧ (users_table w' !! userId = users_table w !! userId
     ∨ users_table w' !! userId
       = Some {| user_handicap :=
                   Handicap.computeHandicap
                     (round_scoreDifferential
                        <$> index_scan (latest_rounds_query userId) (rounds_table w));
                 user_updatedAt := now env |})
  ∧ ∃ lines, log w' = log w ++ lines ∧ (length lines ≤ 1)%nat.
Proof.
  cbv zeta. rewrite updateUserHandicap_run. cbv zeta.
  destruct (throws env (QueryCommand _)).
  { cbn. split_and!; try done; [by left|]. eexists [_]. split; [reflexivity|done]. }
  destruct (throws env (UpdateCommand _ _ _)).
  { cbn. split_and!; try done; [by left|]. eexists [_]. split; [reflexivity|done]. }
  case_decide; cbn.
  - split_and!; try done.
    + intros other Hother. by rewrite lookup_insert_ne.
    + right. by rewrite lookup_insert_eq.
    + exists []. split; [by rewrite app_nil_r | cbn; lia].
  - split_and!; try done.
    + intros other Hother. by rewrite lookup_insert_ne.
    + right. by rewrite lookup_insert_eq.
    + eexists [_]. split; [reflexivity|done].
Qed.

(** X7. [createRound] always answers, with 201, 404 or 500.  With 201 the
    table of rounds is the former one with the new round under the round's
    identifier, which is the identifier drawn unless the body carries an
    [id], just as the owner is the requester unless the body carries a
    [userId]: a body with the [id] of an existing round replaces that
    round.  With 404 the course is unknown and nothing at all has changed;
    with 500 a command was rejected, which is logged, and neither a round
    nor a handicap was written. *)
Theorem createRound_outcomes
    (env : Env) (userId : string) (roundData : CreateRoundInput) (w : World) :
  let run := createRound env userId roundData w in
  ∃ response,
    run.2 = Ok response
    ∧ ((status response = 201%nat
        ∧ ∃ course,
            let round :=
              createdRound env userId roundData course
                (uuid env (uuids_drawn w)) in
            courses_table w !! input_courseId roundData = Some course
            ∧ json response = RoundJson round
            ∧ rounds_table run.1 = <[round_id round := round]> (rounds_table w)
            ∧ round_id round
              = default (uuid env (uuids_drawn w)) (input_id roundData)
            ∧ round_userId round = default userId (input_userId roundData))
       ∨ (status response = 404%nat
          ∧ courses_table w !! input_courseId roundData = None
          ∧ run.1 = w)
       ∨ (status response = 500%nat
          ∧ rounds_table run.1 = rounds_table w
          ∧ users_table run.1 = users_table w
          ∧ ∃ command,
              throws env command = true
              ∧ log run.1
                = log w ++ [LogError "Create round error:" (StorageError command)])).
Proof.
  cbv zeta. rewrite createRound_run. cbv zeta.
  destruct (throws env (GetCommand _ _)) eqn:Hget.
  { eexists. split; [reflexivity|]. right. right.
    split_and!; try done. by eexists. }
  destruct (courses_table w !! _) as [course|] eqn:Hcourse.
  2:{ eexists. split; [reflexivity|]. right. left. done. }
  destruct (throws env (PutCommand _)) eqn:Hput.
  { eexists. split; [reflexivity|]. right. right.
    split_and!; try done. by eexists. }
  eexists. split; [reflexivity|]. left. split; [done|].
  exists course. split_and!; try done.
  cbn [fst]. case_decide; [done|]. by rewrite updateUserHandicap_rounds.
Qed.

(** X8. When the store answers and the course exists, a signed-in player's
    [createRound] answers 201 with the round, the round can be looked up
    under its identifier and is among the rounds of its owner, and the
    stored handicap of the requester is the handicap of the requester's
    latest rounds in the table as it is after the creation.  The owner is
    the requester unless the body carries a [userId]; the handicap of an
    owner who is not the requester is not touched. *)
Theorem createRound_refreshes_handicap
    (env : Env) (userId : string) (roundData : CreateRoundInput) (w : World)
    (course : Course) :
  (∀ c, throws env c = false) ->
  courses_table w !! input_courseId roundData = Some course ->
  userId ≠ EmptyString ->
  let run := createRound env userId roundData w in
  let round :=
    createdRound env userId roundData course (uuid env (uuids_drawn w)) in
  run.2 = Ok {| status := 201; json := RoundJson round |}
  ∧ rounds_table run.1 !! round_id round = Some round
  ∧ stored_handicap userId run.1
    = Some (Handicap.computeHandicap
              (round_scoreDifferential
                 <$> index_scan (latest_rounds_query userId) (rounds_table run.1)))
  ∧ round ∈ index_scan (rounds_by_recency (round_userId round))
              (rounds_table run.1)
  ∧ (input_userId roundData = None -> round_userId round = userId)
  ∧ (round_userId round ≠ userId ->
     users_table run.1 !! round_userId round = users_table w !! round_userId round).
Proof.
  intros Hok Hcourse Huser. cbv zeta. rewrite createRound_run. cbv zeta.
  rewrite Hok, Hcourse, Hok. rewrite decide_False by exact Huser.
  cbn [fst snd]. split; [reflexivity|].
  rewrite updateUserHandicap_stores by exact Hok.
  rewrite updateUserHandicap_rounds. cbn [rounds_table set_rounds draw_uuid].
  split_and!.
  - by rewrite lookup_insert_eq.
  - reflexivity.
  - apply rounds_by_recency_elem. split; [reflexivity|].
    eexists. by rewrite lookup_insert_eq.
  - intros Hnone. cbn [round_userId createdRound]. by rewrite Hnone.
  - intros Hother. by rewrite updateUserHandicap_others.
Qed.

Lemma createRound_refreshes_handicap_witness :
  stored_handicap "kari"
    (createRound reliable "kari" sample_input course_world).1
  = Some (Handicap.computeHandicap
            (round_scoreDifferential
               <$> index_scan (latest_rounds_query "kari")
                     (rounds_table
                        (createRound reliable "kari" sample_input course_world).1))).
Proof.
  assert (∀ c, throws reliable c = false) as Hok by (intros c; reflexivity).
  assert (courses_table course_world !! input_courseId sample_input
          = Some sample_course) as Hcourse by reflexivity.
  assert ("kari" ≠ EmptyString) as Huser by discriminate.
  exact (proj1 (proj2 (proj2
    (createRound_refreshes_handicap reliable "kari" sample_input course_world
       sample_course Hok Hcourse Huser)))).
Defined.

(** * Reading, changing and deleting rounds *)

(** One step of the monad at a time. *)
Lemma bind_run {A B} (m : M A) (k : A → M B) w :
  bind m k w
  = match m w with
    | (w', Ok a) => k a w'
    | (w', Throw e) => (w', Throw e)
    end.
Proof. reflexivity. Qed.

Lemma try_catch_run {A} (m : M A) (handler : Error → M A) w :
  try_catch m handler w
  = match m w with
    | (w', Ok a) => (w', Ok a)
    | (w', Throw e) => handler e w'
    end.
Proof. reflexivity. Qed.

Lemma send_get_round_run env key w :
  send_get_round env key w
  = if throws env (GetCommand ROUNDS key)
    then (w, Throw (StorageError (GetCommand ROUNDS key)))
    else (w, Ok (rounds_table w !! key)).
Proof. unfold send_get_round, send. by destruct (throws env _). Qed.

(** What a query returns satisfies its conditions and is in the table. *)
Lemma index_scan_elem q tbl r :
  r ∈ index_scan q tbl ->
  key_condition q r ∧ filter_expression q r ∧ ∃ key, tbl !! key = Some r.
Proof.
  unfold index_scan. cbv zeta. intros Hr.
  apply list_elem_of_filter in Hr as [Hfilter Hr].
  assert (r ∈ merge_sort by_date
                (filter (key_condition q) (map_to_list tbl).*2)) as Hsorted.
  { destruct (Limit q) as [n|].
    - apply (subseteq_take n) in Hr.
      destruct (ScanIndexForward q); [exact Hr|].
      by apply elem_of_reverse.
    - destruct (ScanIndexForward q); [exact Hr|].
      by apply elem_of_reverse. }
  rewrite merge_sort_Permutation in Hsorted.
  apply list_elem_of_filter in Hsorted as [Hkey Hin].
  apply list_elem_of_fmap in Hin as [[key r'] [-> Hin]].
  apply elem_of_map_to_list in Hin. eauto.
Qed.

(** Promises that only read leave the world as it is, also together. *)
Lemma promise_all_reads {A B} (f : A → M B) (xs : list A) w :
  (∀ x, (f x w).1 = w) ->
  (promise_all (f <$> xs) w).1 = w
  ∧ ∀ results, (promise_all (f <$> xs) w).2 = Ok results ->
      Forall2 (λ x result, (f x w).2 = Ok result) xs results.
Proof.
  intros Hreads. induction xs as [|x xs [IHw IHr]].
  { split; [done|]. intros results [= <-]. constructor. }
  cbn [fmap list_fmap promise_all].
  change (list_fmap A (M B) f xs) with (f <$> xs).
  pose proof (Hreads x) as Hx.
  destruct (f x w) as [w1 r1] eqn:Ef. cbn [fst] in Hx. subst w1.
  destruct (promise_all (f <$> xs) w) as [w2 rs] eqn:Ep.
  cbn [fst snd] in IHw, IHr |- *. subst w2. split; [reflexivity|].
  intros results Hres. destruct r1 as [b|e]; [|discriminate].
  destruct rs as [bs|e]; [|discriminate]. injection Hres as <-.
  constructor; [by rewrite Ef | by apply IHr].
Qed.

Lemma getRound_run env userId id w :
  getRound env userId id w =
    let get := GetCommand ROUNDS id in
    if throws env get
    then (add_log (LogError "Get round error:" (StorageError get)) w,
          Ok {| status := 500; json := Message "Kunne ikke hente runde" |})
    else match rounds_table w !! id with
         | None => (w, Ok {| status := 404; json := Message "Runde ikke funnet" |})
         | Some item =>
             if decide (round_userId item ≠ userId)
             then (w, Ok {| status := 403; json := Message "Ingen tilgang" |})
             else (w, Ok {| status := 200; json := RoundJson item |})
         end.
Proof.
  cbv zeta. unfold getRound, try_catch, bind, send_get_round, send.
  destruct (throws env (GetCommand _ _)); [done|].
  unfold gets. destruct (rounds_table w !! id) as [item|]; [|done].
  by case_decide.
Qed.

(** X9. [getRound] never changes a table.  It hands out a round only with
    status 200, and then the round is the item stored under the identifier
    asked for and belongs to the requester; when the store answers the
    lookup, the answer is 404 for an unknown identifier, 403 for a round of
    another user and 200 with the round otherwise. *)
Theorem getRound_access (env : Env) (userId id : string) (w : World) :
  let run := getRound env userId id w in
  rounds_table run.1 = rounds_table w
  ∧ users_table run.1 = users_table w
  ∧ (∀ response round,
       run.2 = Ok response -> json response = RoundJson round ->
       status response = 200%nat
       ∧ rounds_table w !! id = Some round
       ∧ round_userId round = userId)
  ∧ (throws env (GetCommand ROUNDS id) = false ->
     run = (w, Ok match rounds_table w !! id with
                  | None => {| status := 404; json := Message "Runde ikke funnet" |}
                  | Some item =>
                      if decide (round_userId item = userId)
                      then {| status := 200; json := RoundJson item |}
                      else {| status := 403; json := Message "Ingen tilgang" |}
                  end)).
Proof.
  cbv zeta. rewrite getRound_run. cbv zeta.
  destruct (throws env (GetCommand _ _)) eqn:Hget.
  { split; [done|]. split; [done|]. split; [|done].
    intros response round [= <-] [=]. }
  destruct (rounds_table w !! id) as [item|] eqn:Hitem.
  2:{ split; [done|]. split; [done|]. split; [|done].
      intros response round [= <-] [=]. }
  destruct (decide (round_userId item ≠ userId)) as [Howner|Howner].
  - split; [done|]. split; [done|]. split.
    + intros response round [= <-] [=].
    + intros _. by rewrite decide_False.
  - apply dec_stable in Howner.
    split; [done|]. split; [done|]. split.
    + intros response round [= <-] [= <-]. done.
    + intros _. by rewrite decide_True.
Qed.

Lemma createRound_stores env userId roundData w course :
  (∀ c, throws env c = false) ->
  courses_table w !! input_courseId roundData = Some course ->
  let round :=
    createdRound env userId roundData course (uuid env (uuids_drawn w)) in
  rounds_table (createRound env userId roundData w).1
  = <[round_id round := round]> (rounds_table w).
Proof.
  intros Hok Hcourse. cbv zeta. rewrite createRound_run. cbv zeta.
  rewrite Hok, Hcourse, Hok. cbn [fst].
  case_decide; [done|]. by rewrite updateUserHandicap_rounds.
Qed.

(** X10. A round that was created can be read back: when the store answers
    and the course exists, [getRound] with the identifier of the round
    returns to its owner exactly the round [createRound] built, and refuses
    it to any other user with 403.  For a body without [id] and [userId]
    the identifier is the one drawn and the owner is the requester. *)
Theorem createRound_then_getRound
    (env : Env) (userId other : string) (roundData : CreateRoundInput)
    (w : World) (course : Course) :
  let created := (createRound env userId roundData w).1 in
  let round :=
    createdRound env userId roundData course (uuid env (uuids_drawn w)) in
  (∀ c, throws env c = false) ->
  courses_table w !! input_courseId roundData = Some course ->
  other ≠ round_userId round ->
  getRound env (round_userId round) (round_id round) created
  = (created, Ok {| status := 200; json := RoundJson round |})
  ∧ getRound env other (round_id round) created
    = (created, Ok {| status := 403; json := Message "Ingen tilgang" |})
  ∧ (input_id roundData = None -> input_userId roundData = None ->
     round_id round = uuid env (uuids_drawn w) ∧ round_userId round = userId).
Proof.
  intros created round Hok Hcourse Hother.
  assert (rounds_table created !! round_id round = Some round) as Hround.
  { unfold created. rewrite (createRound_stores _ _ _ _ course) by done.
    by rewrite lookup_insert_eq. }
  rewrite !getRound_run. cbv zeta. rewrite !Hok, Hround.
  rewrite decide_False by (intros H; by apply H).
  rewrite decide_True by (intros H; by apply Hother).
  split_and!; [done|done|].
  intros Hid Huser. cbn [round round_id round_userId createdRound].
  by rewrite Hid, Huser.
Qed.

Lemma createRound_then_getRound_witness :
  getRound reliable "kari" "uuid-0"
    (createRound reliable "kari" sample_input course_world).1
  = ((createRound reliable "kari" sample_input course_world).1,
     Ok {| status := 200;
           json := RoundJson (createdRound reliable "kari" sample_input
                                sample_course "uuid-0") |}).
Proof.
  assert (∀ c, throws reliable c = false) as Hok by (intros c; reflexivity).
  assert (courses_table course_world !! input_courseId sample_input
          = Some sample_course) as Hcourse by reflexivity.
  assert ("ola" ≠ round_userId (createdRound reliable "kari" sample_input
                                  sample_course
                                  (uuid reliable (uuids_drawn course_world))))
    as Hother by discriminate.
  exact (proj1 (createRound_then_getRound reliable "kari" "ola" sample_input
                  course_world sample_course Hok Hcourse Hother)).
Defined.

Lemma updateRound_run env userId id holes w :
  updateRound env userId id holes w =
    let get := GetCommand ROUNDS id in
    if throws env get
    then (add_log (LogError "Update round error:" (StorageError get)) w,
          Ok {| status := 500; json := Message "Kunne ikke oppdatere runde" |})
    else match rounds_table w !! id with
         | Some item =>
             if decide (round_userId item = userId) then
               let updated := with_holes item holes (now env) in
               if throws env (PutCommand updated)
               then (add_log (LogError "Update round error:"
                                (StorageError (PutCommand updated))) w,
                     Ok {| status := 500;
                           json := Message "Kunne ikke oppdatere runde" |})
               else (set_rounds <[id := updated]> w,
                     Ok {| status := 200; json := RoundJson updated |})
             else (w, Ok {| status := 403; json := Message "Ingen tilgang" |})
         | None => (w, Ok {| status := 403; json := Message "Ingen tilgang" |})
         end.
Proof.
  cbv zeta. unfold updateRound, try_catch, bind, send_get_round, send.
  destruct (throws env (GetCommand _ _)); [done|].
  unfold gets. destruct (rounds_table w !! id) as [item|] eqn:Hitem.
  - destruct (decide (round_userId item = userId)) as [Howner|Howner].
    + rewrite decide_False.
      2:{ intros [[=]|H]. apply H. cbn. by rewrite Howner. }
      unfold send_update_holes, send. rewrite Hitem.
      by destruct (throws env (PutCommand _)).
    + rewrite decide_True; [done|]. right. cbn. by intros [=].
  - rewrite decide_True; [done | by left].
Qed.

(** X11. [updateRound] touches one round at most, the one asked for, and
    never a user: every other round stays as it is, and of the round itself
    the owner, the date, the total score and the score differential stay as
    stored, the new holes notwithstanding, so that no handicap moves.  With
    200 the round belonged to the requester and is stored with the new holes
    and the time of the update; with any other answer the table of rounds is
    unchanged, and a missing or foreign round is answered with 403. *)
Theorem updateRound_keeps_differential
    (env : Env) (userId id : string) (holes : list Hole) (w : World) :
  let run := updateRound env userId id holes w in
  users_table run.1 = users_table w
  ∧ (∀ key, key ≠ id -> rounds_table run.1 !! key = rounds_table w !! key)
  ∧ round_scoreDifferential <$> rounds_table run.1 !! id
    = round_scoreDifferential <$> rounds_table w !! id
  ∧ round_totalScore <$> rounds_table run.1 !! id
    = round_totalScore <$> rounds_table w !! id
  ∧ round_userId <$> rounds_table run.1 !! id
    = round_userId <$> rounds_table w !! id
  ∧ round_date <$> rounds_table run.1 !! id
    = round_date <$> rounds_table w !! id
  ∧ (∀ response,
       run.2 = Ok response -> status response = 200%nat ->
       ∃ item,
         rounds_table w !! id = Some item
         ∧ round_userId item = userId
         ∧ json response = RoundJson (with_holes item holes (now env))
         ∧ rounds_table run.1 !! id = Some (with_holes item holes (now env)))
  ∧ (∀ response,
       run.2 = Ok response -> status response ≠ 200%nat ->
       rounds_table run.1 = rounds_table w)
  ∧ (throws env (GetCommand ROUNDS id) = false ->
     (∀ item, rounds_table w !! id = Some item -> round_userId item ≠ userId) ->
     run = (w, Ok {| status := 403; json := Message "Ingen tilgang" |})).
Proof.
  cbv zeta. rewrite updateRound_run. cbv zeta.
  destruct (throws env (GetCommand _ _)) eqn:Hget.
  { cbn [fst snd add_log rounds_table users_table].
    split_and!; try done; intros response [= <-]; done. }
  destruct (rounds_table w !! id) as [item|] eqn:Hitem.
  2:{ cbn [fst snd]. rewrite Hitem.
      split_and!; try done; intros response [= <-]; done. }
  destruct (decide (round_userId item = userId)) as [Howner|Howner].
  2:{ cbn [fst snd]. rewrite Hitem.
      split_and!; try done; intros response [= <-]; done. }
  destruct (throws env (PutCommand _)) eqn:Hput.
  { cbn [fst snd add_log rounds_table users_table]. rewrite Hitem.
    split_and!; try done.
    - intros response [= <-]. done.
    - intros _ H. by destruct (H item). }
  cbn [fst snd rounds_table users_table set_rounds].
  rewrite lookup_insert_eq.
  split_and!; try done.
  - intros key Hkey. by rewrite lookup_insert_ne.
  - intros response [= <-] _. by exists item.
  - intros response [= <-] H. by destruct H.
  - intros _ H. by destruct (H item).
Qed.

Lemma falsy_false s : falsy s = false -> ∃ value, s = Some value ∧ value ≠ EmptyString.
Proof.
  destruct s as [value|]; [|done]. cbn. intros H.
  exists value. split; [done|]. by apply bool_decide_eq_false in H.
Qed.

Lemma first_matches env date courseId w userIds results :
  Forall2 (λ userId result,
             (bind (send_query env (related_rounds_query userId date courseId))
                   (λ items, ret (head items)) w).2 = Ok result)
          userIds results ->
  Forall (λ round,
            round_date round = date
            ∧ round_courseId round = courseId
            ∧ round_userId round ∈ userIds
            ∧ ∃ key, rounds_table w !! key = Some round) (omap id results)
  ∧ round_userId <$> omap id results `sublist_of` userIds.
Proof.
  induction 1 as [|userId result userIds results Hone _ [IH1 IH2]].
  { split; constructor. }
  cbn [omap list_omap]. destruct result as [round|]; cbn [id].
  - unfold bind, send_query, send, gets, throw, ret in Hone.
    destruct (throws env _); [discriminate Hone|].
    cbn [snd] in Hone. injection Hone as Hhead.
    assert (round ∈ index_scan (related_rounds_query userId date courseId)
                      (rounds_table w)) as Hin.
    { destruct (index_scan _ _) as [|r rs]; cbn in Hhead; [discriminate|].
      injection Hhead as ->. left. }
    apply index_scan_elem in Hin as ((Huser & Hd) & Hc & Hk).
    cbn [key_condition filter_expression related_rounds_query query_userId
           query_date query_courseId] in Huser, Hd, Hc. split.
    + constructor.
      * split_and!; try done. rewrite Huser. left.
      * eapply Forall_impl; [exact IH1|]. intros r (?&?&?&?).
        split_and!; try done. by right.
    + cbn [fmap list_fmap]. rewrite Huser. by constructor.
  - split.
    + eapply Forall_impl; [exact IH1|]. intros r (?&?&?&?).
      split_and!; try done. by right.
    + by constructor.
Qed.

(** X12. [getRoundsByCriteria] never changes a table.  The rounds it
    returns are rounds of the table with the date and the course asked for,
    each of a requested user, at most one per requested user and in the
    order of the request; a missing or empty date or course, or a missing
    list of users, is answered with 400. *)
Theorem getRoundsByCriteria_matches (env : Env) (body : CriteriaInput) (w : World) :
  let run := getRoundsByCriteria env body w in
  rounds_table run.1 = rounds_table w
  ∧ users_table run.1 = users_table w
  ∧ (∀ response rounds,
       run.2 = Ok response -> list_json response = RoundsJson rounds ->
       ∃ date courseId userIds,
         criteria_date body = Some date
         ∧ criteria_courseId body = Some courseId
         ∧ criteria_userIds body = Some userIds
         ∧ list_status response = 200%nat
         ∧ Forall (λ round,
                     round_date round = date
                     ∧ round_courseId round = courseId
                     ∧ round_userId round ∈ userIds
                     ∧ ∃ key, rounds_table w !! key = Some round) rounds
         ∧ round_userId <$> rounds `sublist_of` userIds)
  ∧ (falsy (criteria_date body) = true ∨ falsy (criteria_courseId body) = true
     ∨ criteria_userIds body = None ->
     run = (w, Ok {| list_status := 400;
                     list_json := ListMessage "date, courseId og userIds er påkrevd" |})).
Proof.
  cbv zeta. unfold getRoundsByCriteria, try_catch.
  destruct (criteria_userIds body) as [userIds|] eqn:Hids.
  2:{ cbn. split_and!; try done. intros response rounds [= <-] [=]. }
  destruct (falsy (criteria_date body) || falsy (criteria_courseId body)) eqn:Hfalsy.
  { cbn. split_and!; try done. intros response rounds [= <-] [=]. }
  apply orb_false_elim in Hfalsy as [Hdate Hcourse].
  destruct (falsy_false _ Hdate) as (date & Ed & _).
  destruct (falsy_false _ Hcourse) as (courseId & Ec & _).
  rewrite Ed, Ec. cbn [default from_option id].
  set (lookupRound := λ userId : string,
         bind (send_query env (related_rounds_query userId date courseId))
              (λ items, ret (head items))).
  unfold bind, logger, modify, ret.
  assert (∀ userId, (lookupRound userId w).1 = w) as Hreads.
  { intros userId. unfold lookupRound, bind, send_query, send.
    by destruct (throws env _). }
  destruct (promise_all_reads lookupRound userIds w Hreads) as [Hw Hres].
  assert (¬ (falsy (Some date) = true ∨ falsy (Some courseId) = true
             ∨ Some userIds = None)) as Hno400.
  { rewrite <- Ed, <- Ec, Hdate, Hcourse. intros [H|[H|H]]; discriminate H. }
  destruct (promise_all (lookupRound <$> userIds) w) as [w1 [results|e]] eqn:Ep;
    cbn [fst snd] in Hw, Hres |- *; subst w1.
  2:{ cbn [fst snd add_log rounds_table users_table].
      split; [done|]. split; [done|]. split.
      - intros response rounds [= <-] [=].
      - intros H. by destruct Hno400. }
  specialize (Hres results eq_refl).
  split; [done|]. split; [done|]. split.
  2:{ intros H. by destruct Hno400. }
  intros response rounds [= <-] [= <-].
  exists date, courseId, userIds.
  destruct (first_matches env date courseId w userIds results Hres) as [H1 H2].
  split_and!; done.
Qed.

(** * Deleting rounds *)

Lemma deleteRound_refused env userId id w :
  throws env (GetCommand ROUNDS id) = false ->
  (∀ round, rounds_table w !! id = Some round -> round_userId round ≠ userId) ->
  deleteRound env userId id w
  = (w, Ok {| status := 403; json := Message "Ingen tilgang" |}).
Proof.
  intros Hget Hforeign.
  unfold deleteRound, try_catch, bind, send_get_round, send. rewrite Hget.
  unfold gets. destruct (rounds_table w !! id) as [round|] eqn:Hround; [|done].
  rewrite decide_False; [done|]. by apply Hforeign.
Qed.

Lemma send_delete_run env key w :
  send_delete env key w
  = if throws env (DeleteCommand key)
    then (w, Throw (StorageError (DeleteCommand key)))
    else (set_rounds (delete key) w, Ok tt).
Proof. unfold send_delete, send. by destruct (throws env _). Qed.

(** The deletions of a list of rounds: nothing but rounds of the list
    leaves the table, and nothing else changes. *)
Lemma deletes_effect env (rounds : list Round) : ∀ w,
  let run := promise_all ((λ r, send_delete env (round_id r)) <$> rounds) w in
  users_table run.1 = users_table w
  ∧ log run.1 = log w
  ∧ (∀ key round, rounds_table run.1 !! key = Some round ->
       rounds_table w !! key = Some round)
  ∧ (∀ key round, rounds_table w !! key = Some round ->
       rounds_table run.1 !! key = None -> key ∈ round_id <$> rounds)
  ∧ ((∀ c, throws env c = false) ->
     rounds_table run.1
     = foldr (λ r tbl, delete (round_id r) tbl) (rounds_table w) (reverse rounds)
     ∧ ∃ done, run.2 = Ok done).
Proof.
  induction rounds as [|r rounds IH]; intros w; cbv zeta.
  { cbn. split_and!; try done.
    - intros key round H1 H2. congruence.
    - intros _. split; [done | by eexists]. }
  cbn [fmap list_fmap promise_all].
  change (list_fmap Round (M ()) (λ r, send_delete env (round_id r)) rounds)
    with ((λ r, send_delete env (round_id r)) <$> rounds).
  rewrite send_delete_run.
  destruct (throws env (DeleteCommand (round_id r))) eqn:Hthrows.
  - specialize (IH w). cbv zeta in IH.
    destruct (promise_all _ w) as [w2 rs] eqn:Ep. cbn [fst snd] in IH |- *.
    destruct IH as (Hu & Hl & Hsub & Hgone & Hall).
    split_and!; try done.
    + intros key round Hk Hnone. right. by eapply Hgone.
    + intros Hok. by rewrite Hok in Hthrows.
  - specialize (IH (set_rounds (delete (round_id r)) w)). cbv zeta in IH.
    destruct (promise_all _ (set_rounds _ w)) as [w2 rs] eqn:Ep.
    cbn [fst snd] in IH |- *.
    destruct IH as (Hu & Hl & Hsub & Hgone & Hall).
    cbn [set_rounds users_table log rounds_table] in Hu, Hl, Hsub, Hgone, Hall.
    split_and!; try done.
    + intros key round Hk. apply Hsub in Hk.
      by apply lookup_delete_Some in Hk as [_ ?].
    + intros key round Hk Hnone.
      destruct (decide (key = round_id r)) as [->|Hne]; [left|].
      right. eapply Hgone; [|done]. by rewrite lookup_delete_ne.
    + intros Hok. destruct (Hall Hok) as [Htbl [l Hl']]. split.
      * rewrite Htbl, reverse_cons, foldr_app. reflexivity.
      * subst rs. by eexists.
Qed.

Lemma updates_return env (userIds : list string) w :
  ∃ w' done, promise_all (updateUserHandicap env <$> userIds) w = (w', Ok done)
             ∧ same_store w' w.
Proof.
  revert w. induction userIds as [|u us IH]; intros w.
  - by eexists _, _.
  - cbn [fmap list_fmap promise_all].
    destruct (updateUserHandicap_returns env u w) as (w1 & -> & H1).
    destruct (IH w1) as (w2 & l & Hl & H2).
    change (list_fmap string (M ()) (updateUserHandicap env) us)
      with (updateUserHandicap env <$> us).
    rewrite Hl. eexists _, _. split; [done|]. by eapply same_store_trans.
Qed.

(** The rounds [deleteRound] gathers: the round itself, or what the queries
    for the player and the co-players return. *)
Lemma related_rounds_read env userId round w :
  round_userId round = userId ->
  (∃ key, rounds_table w !! key = Some round) ->
  let gather :=
    if decide (0 < length (round_players round))%nat then
      bind (promise_all
              ((λ playerId,
                  send_query env
                    (related_rounds_query playerId (round_date round)
                       (round_courseId round)))
                 <$> userId :: round_players round))
           (λ relatedRoundsResult, ret (concat relatedRoundsResult))
    else ret [round] in
  (gather w).1 = w
  ∧ ∀ related, (gather w).2 = Ok related ->
      Forall (λ r, round_date r = round_date round
                   ∧ round_courseId r = round_courseId round
                   ∧ round_userId r ∈ userId :: round_players round
                   ∧ ∃ key, rounds_table w !! key = Some r) related.
Proof.
  intros Howner Hstored. cbv zeta. case_decide.
  2:{ split; [done|]. intros related [= <-]. constructor; [|constructor].
      split_and!; try done. rewrite Howner. left. }
  set (query := λ playerId : string,
         send_query env
           (related_rounds_query playerId (round_date round)
              (round_courseId round))).
  assert (∀ playerId, (query playerId w).1 = w) as Hreads.
  { intros playerId. unfold query, send_query, send.
    by destruct (throws env _). }
  destruct (promise_all_reads query (userId :: round_players round) w Hreads)
    as [Hw Hres].
  unfold bind.
  destruct (promise_all (query <$> userId :: round_players round) w)
    as [w1 [results|e]]; cbn [fst snd] in Hw, Hres |- *; subst w1;
    [|done].
  split; [done|]. intros related [= <-].
  specialize (Hres results eq_refl).
  induction Hres as [|playerId result playerIds results Hone _ IH];
    [constructor|].
  cbn [concat]. apply Forall_app. split.
  - unfold query, send_query, send, gets, throw in Hone.
    destruct (throws env _); [discriminate Hone|].
    cbn [snd] in Hone. injection Hone as <-.
    apply Forall_forall. intros r Hr.
    apply index_scan_elem in Hr as ((Huser & Hd) & Hc & Hk).
    cbn [key_condition filter_expression related_rounds_query query_userId
           query_date query_courseId] in Huser, Hd, Hc.
    split_and!; try done. rewrite Huser. left.
  - eapply Forall_impl; [exact IH|]. intros r (?&?&?&?).
    split_and!; try done. by right.
Qed.

Ltac table_unchanged :=
  rewrite ?bind_run; unfold logger, modify, ret;
  cbn [fst snd add_log rounds_table];
  split; [done|]; split;
  [ intros ? ? H1 H2; rewrite H1 in H2; discriminate H2
  | eexists; split; [reflexivity|]; cbn [status]; auto ].

(** X13. Whatever the store does, [deleteRound] answers with 200, 403 or
    500, adds no round and alters none, and removes a round only if the
    round asked for belongs to the requester and the removed round has its
    date and course and is a round of the requester or of one of the players
    listed in it. *)
Theorem deleteRound_removes_only_related
    (env : Env) (userId id : string) (w : World) :
  keyed_by_id (rounds_table w) ->
  let run := deleteRound env userId id w in
  (∀ key round, rounds_table run.1 !! key = Some round ->
     rounds_table w !! key = Some round)
  ∧ (∀ key round,
       rounds_table w !! key = Some round ->
       rounds_table run.1 !! key = None ->
       ∃ target,
         rounds_table w !! id = Some target
         ∧ round_userId target = userId
         ∧ round_date round = round_date target
         ∧ round_courseId round = round_courseId target
         ∧ round_userId round ∈ userId :: round_players target)
  ∧ ∃ response,
      run.2 = Ok response
      ∧ (status response = 200%nat ∨ status response = 403%nat
         ∨ status response = 500%nat).
Proof.
  intros Hkeyed. cbv zeta.
  unfold deleteRound. rewrite try_catch_run, bind_run, send_get_round_run.
  destruct (throws env (GetCommand ROUNDS id)).
  { table_unchanged. }
  destruct (rounds_table w !! id) as [target|] eqn:Htarget.
  2:{ table_unchanged. }
  case_decide as Howner.
  2:{ table_unchanged. }
  rewrite bind_run.
  destruct (related_rounds_read env userId target w Howner
              ltac:(by exists id)) as [Hw Hrelated].
  match type of Hw with (?gather w).1 = w =>
    destruct (gather w) as [w1 [related|e]] eqn:Eg end;
    cbn [fst snd] in Hw, Hrelated; subst w1.
  2:{ table_unchanged. }
  specialize (Hrelated related eq_refl). rewrite bind_run.
  pose proof (deletes_effect env related w) as Hdel. cbv zeta in Hdel.
  destruct (promise_all ((λ r, send_delete env (round_id r)) <$> related) w)
    as [w2 [deleted|e]] eqn:Ed; cbn [fst snd] in Hdel;
    destruct Hdel as (_ & _ & Hsub & Hgone & _).
  - rewrite bind_run.
    destruct (updates_return env (unique (round_userId <$> related)) w2)
      as (w3 & l & -> & (Hr & _)).
    cbn [fst snd ret]. rewrite Hr. split_and!; try done.
    + intros key round Hkey Hnone.
      pose proof (Hgone key round Hkey Hnone) as Hin.
      apply list_elem_of_fmap in Hin as (r' & -> & Hr').
      eapply Forall_forall in Hrelated as (Hd & Hc & Hu & key' & Hk'); [|exact Hr'].
      rewrite (Hkeyed _ _ Hk'), Hk' in Hkey.
      injection Hkey as <-. by exists target.
    + eexists. split; [reflexivity|]. by left.
  - cbn [fst snd logger modify add_log rounds_table ret bind].
    split_and!; try done.
    + intros key round Hkey Hnone.
      pose proof (Hgone key round Hkey Hnone) as Hin.
      apply list_elem_of_fmap in Hin as (r' & -> & Hr').
      eapply Forall_forall in Hrelated as (Hd & Hc & Hu & key' & Hk'); [|exact Hr'].
      rewrite (Hkeyed _ _ Hk'), Hk' in Hkey.
      injection Hkey as <-. by exists target.
    + eexists. split; [reflexivity|]. by right; right.
Qed.

Lemma deleteRound_removes_only_related_witness :
  ∃ response,
    (deleteRound reliable "kari" "round-01" one_round_world).2 = Ok response
    ∧ (status response = 200%nat ∨ status response = 403%nat
       ∨ status response = 500%nat).
Proof.
  assert (keyed_by_id (rounds_table one_round_world)) as Hkeyed.
  { intros key round Hkey. cbn [rounds_table one_round_world] in Hkey.
    apply lookup_singleton_Some in Hkey as [<- <-]. reflexivity. }
  exact (proj2 (proj2 (deleteRound_removes_only_related reliable "kari" "round-01"
                         one_round_world Hkeyed))).
Defined.

Lemma index_scan_none q tbl :
  (∀ key round, tbl !! key = Some round -> ¬ key_condition q round) ->
  index_scan q tbl = [].
Proof.
  intros Hnone. destruct (index_scan q tbl) as [|r rs] eqn:E; [done|].
  assert (r ∈ index_scan q tbl) as Hr by (rewrite E; left).
  apply index_scan_elem in Hr as (Hkey & _ & key & Hk).
  by destruct (Hnone key r Hk).
Qed.

(** X14. When the store answers, deleting an own round that lists no other
    player answers 200 for one round, removes exactly that round and leaves
    the player with the handicap of the latest remaining rounds: 54 when it
    was the player's only round. *)
Theorem deleteRound_single
    (env : Env) (userId id : string) (w : World) (round : Round) :
  (∀ c, throws env c = false) ->
  keyed_by_id (rounds_table w) ->
  rounds_table w !! id = Some round ->
  round_userId round = userId ->
  round_players round = [] ->
  let run := deleteRound env userId id w in
  run.2 = Ok {| status := 200; json := DeletedJson "1 runde slettet" 1 |}
  ∧ rounds_table run.1 = delete id (rounds_table w)
  ∧ stored_handicap userId run.1
    = Some (Handicap.computeHandicap
              (round_scoreDifferential
                 <$> index_scan (latest_rounds_query userId)
                       (delete id (rounds_table w))))
  ∧ ((∀ key other, rounds_table w !! key = Some other ->
        round_userId other = userId -> key = id) ->
     stored_handicap userId run.1 = Some (int 54)).
Proof.
  intros Hok Hkeyed Hround Howner Hsingle. cbv zeta.
  assert (deleteRound env userId id w
          = ((updateUserHandicap env userId
                (set_rounds (delete id) w)).1,
             Ok {| status := 200; json := DeletedJson "1 runde slettet" 1 |}))
    as ->.
  { unfold deleteRound.
    rewrite try_catch_run, bind_run, send_get_round_run, Hok, Hround.
    rewrite decide_True by exact Howner.
    rewrite bind_run, Hsingle. rewrite decide_False by (cbn; lia).
    unfold ret at 1. rewrite bind_run.
    cbn [fmap list_fmap promise_all].
    rewrite send_delete_run, Hok, (Hkeyed _ _ Hround).
    unfold ret at 1. rewrite bind_run.
    assert (unique [round_userId round] = [userId]) as ->
      by (by rewrite Howner).
    cbn [fmap list_fmap promise_all].
    destruct (updateUserHandicap_returns env userId (set_rounds (delete id) w))
      as (w' & -> & _).
    reflexivity. }
  cbn [fst snd]. rewrite updateUserHandicap_rounds.
  rewrite updateUserHandicap_stores by exact Hok.
  cbn [rounds_table set_rounds]. split_and!; try done.
  intros Honly. rewrite index_scan_none; [done|].
  intros key other Hother [Huser _].
  apply lookup_delete_Some in Hother as [Hne Hother].
  cbn [query_userId latest_rounds_query] in Huser.
  by rewrite (Honly key other Hother Huser) in Hne.
Qed.

Lemma one_round_world_keyed : keyed_by_id (rounds_table one_round_world).
Proof.
  intros key round Hkey. cbn [rounds_table one_round_world] in Hkey.
  apply lookup_singleton_Some in Hkey as [<- <-]. reflexivity.
Qed.

Lemma deleteRound_single_witness :
  stored_handicap "kari" (deleteRound reliable "kari" "round-01" one_round_world).1
  = Some (int 54).
Proof.
  assert (∀ c, throws reliable c = false) as Hok by (intros c; reflexivity).
  assert (rounds_table one_round_world !! "round-01"
          = Some (sample_round "round-01" "kari" "2024-01-01" (int 12))) as Hround
    by reflexivity.
  assert (∀ key other, rounds_table one_round_world !! key = Some other ->
            round_userId other = "kari" -> key = "round-01") as Honly.
  { intros key other Hkey _. cbn [rounds_table one_round_world] in Hkey.
    by apply lookup_singleton_Some in Hkey as [<- _]. }
  exact (proj2 (proj2 (proj2
    (deleteRound_single reliable "kari" "round-01" one_round_world
       (sample_round "round-01" "kari" "2024-01-01" (int 12))
       Hok one_round_world_keyed Hround eq_refl eq_refl))) Honly).
Defined.

(** A query without limit returns every round of the table that satisfies
    its conditions. *)
Lemma index_scan_complete q tbl key r :
  Limit q = None ->
  tbl !! key = Some r -> key_condition q r -> filter_expression q r ->
  r ∈ index_scan q tbl.
Proof.
  intros Hlimit Hkey Hcond Hfilter. unfold index_scan. cbv zeta. rewrite Hlimit.
  apply list_elem_of_filter. split; [exact Hfilter|].
  assert (r ∈ merge_sort by_date
                (filter (key_condition q) (map_to_list tbl).*2)) as Hsorted.
  { rewrite merge_sort_Permutation. apply list_elem_of_filter.
    split; [exact Hcond|]. apply list_elem_of_fmap. exists (key, r).
    split; [done|]. by apply elem_of_map_to_list. }
  destruct (ScanIndexForward q); [exact Hsorted|].
  by apply elem_of_reverse.
Qed.

Lemma elem_of_concat {A} (x : A) (ls : list (list A)) :
  x ∈ concat ls <-> ∃ l, x ∈ l ∧ l ∈ ls.
Proof.
  induction ls as [|l ls IH]; cbn [concat].
  { split; [intros []%elem_of_nil | intros (l & _ & []%elem_of_nil)]. }
  rewrite elem_of_app, IH. split.
  - intros [Hl|(l' & Hx & Hl')]; [exists l; split; [done|left] |].
    exists l'. split; [done|by right].
  - intros (l' & Hx & [->|Hl']%elem_of_cons); [by left|].
    right. by exists l'.
Qed.

Lemma queries_all env (query : string → Query) (ids : list string) w :
  (∀ c, throws env c = false) ->
  promise_all ((λ id, send_query env (query id)) <$> ids) w
  = (w, Ok ((λ id, index_scan (query id) (rounds_table w)) <$> ids)).
Proof.
  intros Hok. induction ids as [|id ids IH]; [done|].
  cbn [fmap list_fmap promise_all].
  change (list_fmap string (M (list Round))
            (λ id, send_query env (query id)) ids)
    with ((λ id, send_query env (query id)) <$> ids).
  unfold send_query at 1, send. rewrite Hok. unfold gets. by rewrite IH.
Qed.

Lemma deletes_lookup (rounds : list Round) (tbl : gmap string Round) key :
  foldr (λ r tbl, delete (round_id r) tbl) tbl rounds !! key
  = if decide (key ∈ round_id <$> rounds) then None else tbl !! key.
Proof.
  induction rounds as [|r rounds IH]; cbn [foldr fmap list_fmap].
  { rewrite decide_False; [done|]. apply not_elem_of_nil. }
  change (list_fmap Round string round_id rounds) with (round_id <$> rounds).
  destruct (decide (key = round_id r)) as [->|Hne].
  - rewrite lookup_delete_eq. rewrite decide_True; [done|left].
  - rewrite lookup_delete_ne by done. rewrite IH.
    destruct (decide (key ∈ round_id <$> rounds)) as [Hin|Hin].
    + rewrite decide_True; [done|by right].
    + rewrite decide_False; [done|].
      intros [?|?]%elem_of_cons; done.
Qed.

(** Refreshing the handicaps of a list of players leaves the rounds as they
    are and every player of the list with the handicap of their latest
    rounds. *)
Lemma updates_store env (userIds : list string) :
  (∀ c, throws env c = false) ->
  ∀ w,
    let run := promise_all (updateUserHandicap env <$> userIds) w in
    rounds_table run.1 = rounds_table w
    ∧ (∃ done, run.2 = Ok done)
    ∧ (∀ other, other ∉ userIds -> users_table run.1 !! other = users_table w !! other)
    ∧ ∀ userId, userId ∈ userIds ->
        stored_handicap userId run.1
        = Some (Handicap.computeHandicap
                  (round_scoreDifferential
                     <$> index_scan (latest_rounds_query userId) (rounds_table w))).
Proof.
  intros Hok. induction userIds as [|u us IH]; intros w; cbv zeta.
  { cbn. split_and!; try done; [by eexists|]. intros userId []%elem_of_nil. }
  cbn [fmap list_fmap promise_all].
  change (list_fmap string (M ()) (updateUserHandicap env) us)
    with (updateUserHandicap env <$> us).
  pose proof (updateUserHandicap_stores env u w Hok) as Hstored.
  pose proof (updateUserHandicap_rounds env u w) as Hrounds.
  pose proof (λ other, updateUserHandicap_others env u other w) as Hothers.
  destruct (updateUserHandicap_returns env u w) as (w1 & E1 & _).
  rewrite E1 in Hstored, Hrounds, Hothers |- *. cbn [fst] in Hstored, Hrounds, Hothers.
  specialize (IH w1). cbv zeta in IH.
  destruct (promise_all (updateUserHandicap env <$> us) w1) as [w2 result].
  cbn [fst snd] in IH. destruct IH as (Hr & [l ->] & Hrest & Hin).
  cbn [fst snd]. split_and!.
  - congruence.
  - by eexists.
  - intros other Hother. apply not_elem_of_cons in Hother as [Hne Hother].
    rewrite Hrest by exact Hother. by apply Hothers.
  - intros userId Huser. destruct (decide (userId ∈ us)) as [Hus|Hus].
    + rewrite Hin by exact Hus. by rewrite Hrounds.
    + apply elem_of_cons in Huser as [->|Huser]; [|done].
      unfold stored_handicap in Hstored |- *. rewrite Hrest by exact Hus.
      exact Hstored.
Qed.

Lemma elem_of_unique (x : string) (xs : list string) : x ∈ unique xs <-> x ∈ xs.
Proof. unfold unique. by rewrite elem_of_reverse, elem_of_remove_dups, elem_of_reverse. Qed.

Lemma deletes_all env (rounds : list Round) w :
  (∀ c, throws env c = false) ->
  ∃ w' done,
    promise_all ((λ r, send_delete env (round_id r)) <$> rounds) w = (w', Ok done)
    ∧ users_table w' = users_table w
    ∧ ∀ key, rounds_table w' !! key
             = if decide (key ∈ round_id <$> rounds) then None
               else rounds_table w !! key.
Proof.
  intros Hok. pose proof (deletes_effect env rounds w) as H. cbv zeta in H.
  destruct (promise_all _ w) as [w' result]. cbn [fst snd] in H.
  destruct H as (Hu & _ & _ & _ & Hall).
  destruct (Hall Hok) as [Htbl [l ->]].
  exists w', l. split_and!; try done.
  intros key. rewrite Htbl, deletes_lookup.
  destruct (decide (key ∈ round_id <$> rounds)) as [Hin|Hin].
  - rewrite decide_True; [done|]. rewrite fmap_reverse.
    by apply elem_of_reverse.
  - rewrite decide_False; [done|]. rewrite fmap_reverse.
    by rewrite elem_of_reverse.
Qed.

(** They are the rounds of the requester and of the listed players with the
    date and the course of the round. *)
Lemma relatedRounds_ids userId target tbl key round :
  keyed_by_id tbl ->
  tbl !! key = Some round ->
  key ∈ round_id <$> relatedRounds userId target tbl
  <-> round_date round = round_date target
      ∧ round_courseId round = round_courseId target
      ∧ round_userId round ∈ userId :: round_players target.
Proof.
  intros Hkeyed Hkey. unfold relatedRounds. split.
  - intros Hin. apply list_elem_of_fmap in Hin as (r' & -> & Hr').
    apply elem_of_concat in Hr' as (scan & Hr' & Hscan).
    apply list_elem_of_fmap in Hscan as (playerId & -> & Hplayer).
    apply index_scan_elem in Hr' as ((Hu & Hd) & Hc & key' & Hk').
    cbn [key_condition filter_expression related_rounds_query query_userId
           query_date query_courseId] in Hu, Hd, Hc.
    rewrite (Hkeyed _ _ Hk'), Hk' in Hkey. injection Hkey as <-.
    split_and!; try done. by rewrite Hu.
  - intros (Hd & Hc & Hu). apply list_elem_of_fmap. exists round.
    split; [symmetry; by apply Hkeyed|].
    apply elem_of_concat. eexists. split.
    2:{ apply list_elem_of_fmap. exists (round_userId round).
        split; [reflexivity|exact Hu]. }
    by apply (index_scan_complete _ _ key).
Qed.

Lemma relatedRounds_elem userId target tbl key round :
  keyed_by_id tbl ->
  tbl !! key = Some round ->
  key ∈ round_id <$> relatedRounds userId target tbl ->
  round ∈ relatedRounds userId target tbl.
Proof.
  intros Hkeyed Hkey Hin.
  apply list_elem_of_fmap in Hin as (r' & Hid & Hr').
  assert (r' = round) as ->; [|done].
  pose proof Hr' as Hscan. unfold relatedRounds in Hscan.
  apply elem_of_concat in Hscan as (scan & Hscan & Hplayer).
  apply list_elem_of_fmap in Hplayer as (playerId & -> & _).
  apply index_scan_elem in Hscan as (_ & _ & key' & Hk').
  rewrite <- (Hkeyed _ _ Hk'), <- Hid, Hkey in Hk'. by injection Hk'.
Qed.

(** The run of [deleteRound] on an own round with other players, when the
    store answers: the related rounds leave the table, and then the
    handicaps of their players are refreshed. *)
Lemma deleteRound_related_run env userId id w target :
  (∀ c, throws env c = false) ->
  rounds_table w !! id = Some target ->
  round_userId target = userId ->
  round_players target ≠ [] ->
  let related := relatedRounds userId target (rounds_table w) in
  ∃ w',
    deleteRound env userId id w
    = (w', Ok {| status := 200;
                 json := DeletedJson
                           (pretty (length related) +:+ " runde"
                              +:+ (if decide (1 < length related)%nat
                                   then "r" else EmptyString)
                              +:+ " slettet")
                           (length related) |})
    ∧ target ∈ related
    ∧ (∀ key, rounds_table w' !! key
              = if decide (key ∈ round_id <$> related) then None
                else rounds_table w !! key)
    ∧ ∀ round, round ∈ related ->
        stored_handicap (round_userId round) w'
        = Some (Handicap.computeHandicap
                  (round_scoreDifferential
                     <$> index_scan (latest_rounds_query (round_userId round))
                           (rounds_table w'))).
Proof.
  intros Hok Htarget Howner Hplayers. cbv zeta.
  set (related := relatedRounds userId target (rounds_table w)).
  destruct (deletes_all env related w Hok) as (w2 & deleted & Ed & Hu2 & Ht2).
  pose proof (updates_store env (unique (round_userId <$> related)) Hok w2)
    as Hupd. cbv zeta in Hupd.
  destruct (promise_all (updateUserHandicap env <$> _) w2) as [w3 result] eqn:Eu.
  cbn [fst snd] in Hupd. destruct Hupd as (Hr3 & [l ->] & _ & Hstored).
  exists w3. split_and!.
  - unfold deleteRound. rewrite try_catch_run, bind_run, send_get_round_run.
    rewrite Hok, Htarget. rewrite decide_True by exact Howner.
    rewrite decide_True by (destruct (round_players target); [done|cbn; lia]).
    rewrite !bind_run.
    rewrite (queries_all env
               (λ playerId, related_rounds_query playerId (round_date target)
                              (round_courseId target))) by exact Hok.
    unfold ret at 1. fold (relatedRounds userId target (rounds_table w)).
    fold related. by rewrite bind_run, Ed, bind_run, Eu.
  - apply elem_of_concat. eexists. split.
    2:{ apply list_elem_of_fmap. exists userId. split; [reflexivity|left]. }
    by apply (index_scan_complete _ _ id).
  - intros key. by rewrite Hr3, Ht2.
  - intros round Hround. rewrite Hr3. apply Hstored.
    apply elem_of_unique. apply list_elem_of_fmap. by exists round.
Qed.

(** X15. When the store answers, deleting an own round that lists other
    players answers 200 and removes the whole game: the round itself and
    every round of the requester or of a listed player with the same date
    and course, and nothing else; each player who lost a round is left with
    the handicap of their latest remaining rounds. *)
Theorem deleteRound_whole_game
    (env : Env) (userId id : string) (w : World) (target : Round) :
  (∀ c, throws env c = false) ->
  keyed_by_id (rounds_table w) ->
  rounds_table w !! id = Some target ->
  round_userId target = userId ->
  round_players target ≠ [] ->
  let related (round : Round) :=
    round_date round = round_date target
    ∧ round_courseId round = round_courseId target
    ∧ round_userId round ∈ userId :: round_players target in
  let run := deleteRound env userId id w in
  (∃ message deletedCount,
     run.2 = Ok {| status := 200; json := DeletedJson message deletedCount |}
     ∧ (1 ≤ deletedCount)%nat)
  ∧ rounds_table run.1 !! id = None
  ∧ (∀ key round,
       rounds_table run.1 !! key = Some round
       <-> rounds_table w !! key = Some round ∧ ¬ related round)
  ∧ (∀ key round,
       rounds_table w !! key = Some round -> related round ->
       stored_handicap (round_userId round) run.1
       = Some (Handicap.computeHandicap
                 (round_scoreDifferential
                    <$> index_scan (latest_rounds_query (round_userId round))
                          (rounds_table run.1)))).
Proof.
  intros Hok Hkeyed Htarget Howner Hplayers. cbv zeta.
  destruct (deleteRound_related_run env userId id w target
              Hok Htarget Howner Hplayers)
    as (w' & -> & Htarget_in & Hfinal & Hstored).
  cbn [fst snd]. split_and!.
  - eexists _, _. split; [reflexivity|].
    destruct (relatedRounds userId target (rounds_table w));
      [by apply elem_of_nil in Htarget_in | cbn; lia].
  - rewrite Hfinal. rewrite decide_True; [done|].
    apply list_elem_of_fmap. exists target. split; [|done].
    symmetry. by apply Hkeyed.
  - intros key round. rewrite Hfinal. split.
    + destruct (decide (key ∈ round_id
                          <$> relatedRounds userId target (rounds_table w)))
        as [Hin|Hin]; [intros H; discriminate H|].
      intros Hkey. split; [done|].
      intros Hrel. apply Hin. by apply (relatedRounds_ids _ _ _ key round).
    + intros [Hkey Hnot]. rewrite decide_False; [done|].
      intros Hin. apply Hnot. by apply (relatedRounds_ids _ _ _ key round) in Hin.
  - intros key round Hkey Hrel. apply Hstored.
    apply (relatedRounds_elem _ _ _ key); [done|done|].
    by apply (relatedRounds_ids _ _ _ key round).
Qed.

Lemma deleteRound_whole_game_witness :
  rounds_table (deleteRound reliable "kari" "game-kari" shared_round_world).1
    !! "game-kari" = None.
Proof.
  assert (∀ c, throws reliable c = false) as Hok by (intros c; reflexivity).
  assert (keyed_by_id (rounds_table shared_round_world)) as Hkeyed.
  { intros key round Hkey. cbn [rounds_table shared_round_world] in Hkey.
    apply lookup_insert_Some in Hkey as [[<- <-]|[_ Hkey]]; [reflexivity|].
    apply lookup_singleton_Some in Hkey as [<- <-]. reflexivity. }
  assert (rounds_table shared_round_world !! "game-kari"
          = Some (shared_round "game-kari" "kari" "ola")) as Htarget
    by reflexivity.
  assert (round_players (shared_round "game-kari" "kari" "ola") ≠ []) as Hplayers
    by discriminate.
  exact (proj1 (proj2
    (deleteRound_whole_game reliable "kari" "game-kari" shared_round_world
       (shared_round "game-kari" "kari" "ola")
       Hok Hkeyed Htarget eq_refl Hplayers))).
Defined.

(** * Rounds of several players *)

Lemma gets_all env (ids : list string) w :
  (∀ id, id ∈ ids -> throws env (GetCommand USERS id) = false) ->
  promise_all (send_get_user env <$> ids) w
  = (w, Ok ((λ id, users_table w !! id) <$> ids)).
Proof.
  induction ids as [|id ids IH]; intros Hok; [done|].
  cbn [fmap list_fmap promise_all].
  change (list_fmap string (M (option User)) (send_get_user env) ids)
    with (send_get_user env <$> ids).
  unfold send_get_user at 1, send. rewrite Hok by left.
  unfold gets. rewrite IH; [done|]. intros ? ?. apply Hok. by right.
Qed.

(** X16. [createMultiPlayerRound] refuses, with nothing written and nothing
    logged, a requester who is not one of the players (403, whatever the
    store does) and, when the store answers the lookups, a list of players
    of which one is not registered (400). *)
Theorem createMultiPlayerRound_refused
    (env : Env) (requestingUserId : string)
    (roundData : CreateMultiPlayerRoundInput) (w : World) :
  let playerIds := playerScore_playerId <$> multi_playerScores roundData in
  (requestingUserId ∉ playerIds ->
   createMultiPlayerRound env requestingUserId roundData w
   = (w, Ok {| status := 403;
               json := Message "Du må være en av spillerne i runden" |}))
  ∧ (requestingUserId ∈ playerIds ->
     (∀ id, id ∈ playerIds -> throws env (GetCommand USERS id) = false) ->
     (∃ id, id ∈ playerIds ∧ users_table w !! id = None) ->
     createMultiPlayerRound env requestingUserId roundData w
     = (w, Ok {| status := 400;
                 json := Message "En eller flere spillere finnes ikke i systemet" |})).
Proof.
  cbv zeta. split.
  - intros Hnot. unfold createMultiPlayerRound. rewrite try_catch_run.
    by rewrite decide_False.
  - intros Hin Hok (id & Hid & Hnone).
    unfold createMultiPlayerRound. rewrite try_catch_run.
    rewrite decide_True by exact Hin.
    rewrite bind_run, gets_all by exact Hok.
    rewrite decide_True; [done|].
    assert (None ∈ filter (λ result : option User, result = None)
                     ((λ id, users_table w !! id)
                        <$> (playerScore_playerId <$> multi_playerScores roundData)))
      as Hmissing.
    { apply list_elem_of_filter. split; [done|].
      apply list_elem_of_fmap. by exists id. }
    destruct (filter _ _); [by apply elem_of_nil in Hmissing | cbn; lia].
Qed.

Lemma createMultiPlayerRound_refused_witness :
  createMultiPlayerRound reliable "per" sample_multi_input two_player_world
  = (two_player_world,
     Ok {| status := 403; json := Message "Du må være en av spillerne i runden" |}).
Proof.
  apply (proj1 (createMultiPlayerRound_refused reliable "per" sample_multi_input
                  two_player_world)).
  cbn. rewrite !elem_of_cons, elem_of_nil. intros [H|[H|[]]]; discriminate H.
Defined.

Lemma createPlayerRound_run env roundData course createdRounds playerScore w :
  (∀ c, throws env c = false) ->
  let round :=
    playerRound roundData course (now env) (uuid env (uuids_drawn w)) playerScore in
  createPlayerRound env roundData
    (playerScore_playerId <$> multi_playerScores roundData)
    (ratingFor course (multi_teeColor roundData) (multi_numberOfHoles roundData))
    (course_slope course (multi_teeColor roundData)) (now env)
    createdRounds playerScore w
  = ((updateUserHandicap env (playerScore_playerId playerScore)
        (set_rounds <[uuid env (uuids_drawn w) := round]> (draw_uuid w))).1,
     Ok (createdRounds ++ [round])).
Proof.
  intros Hok. cbv zeta. unfold createPlayerRound.
  rewrite bind_run. unfold uuidv4. fold (draw_uuid w).
  rewrite bind_run. unfold send_put, send. rewrite Hok. unfold modify.
  rewrite bind_run.
  fold (playerRound roundData course (now env) (uuid env (uuids_drawn w))
          playerScore).
  cbn [round_id playerRound].
  destruct (updateUserHandicap_returns env (playerScore_playerId playerScore)
              (set_rounds
                 <[uuid env (uuids_drawn w) :=
                     playerRound roundData course (now env)
                       (uuid env (uuids_drawn w)) playerScore]> (draw_uuid w)))
    as (w' & E & _).
  cbn [round_id playerRound] in E. by rewrite E.
Qed.

Lemma createPlayerRounds_run env roundData course (playerScores : list PlayerScore) :
  (∀ c, throws env c = false) ->
  ∀ createdRounds w,
    let rounds :=
      imap (λ i playerScore,
              playerRound roundData course (now env)
                (uuid env (uuids_drawn w + i)) playerScore) playerScores in
    ∃ w',
      for_of playerScores createdRounds
        (createPlayerRound env roundData
           (playerScore_playerId <$> multi_playerScores roundData)
           (ratingFor course (multi_teeColor roundData)
                      (multi_numberOfHoles roundData))
           (course_slope course (multi_teeColor roundData)) (now env)) w
      = (w', Ok (createdRounds ++ rounds))
      ∧ uuids_drawn w' = (uuids_drawn w + length playerScores)%nat
      ∧ courses_table w' = courses_table w
      ∧ rounds_table w'
        = foldl (λ tbl round, <[round_id round := round]> tbl)
                (rounds_table w) rounds.
Proof.
  intros Hok. induction playerScores as [|ps pss IH]; intros acc w; cbv zeta.
  { exists w. cbn. by rewrite app_nil_r, Nat.add_0_r. }
  cbn [for_of]. rewrite bind_run.
  rewrite (createPlayerRound_run env roundData course acc ps w Hok).
  destruct (updateUserHandicap_returns env (playerScore_playerId ps)
              (set_rounds
                 <[uuid env (uuids_drawn w) :=
                     playerRound roundData course (now env)
                       (uuid env (uuids_drawn w)) ps]> (draw_uuid w)))
    as (w1 & E & (Hr & Hc & Hu)).
  rewrite E. cbn [fst snd].
  cbn [rounds_table courses_table uuids_drawn set_rounds draw_uuid] in Hr, Hc, Hu.
  destruct (IH (acc ++ [playerRound roundData course (now env)
                          (uuid env (uuids_drawn w)) ps]) w1)
    as (w' & Hrun & Hdrawn & Hcourses & Htable).
  assert (imap (λ i playerScore,
                  playerRound roundData course (now env)
                    (uuid env (uuids_drawn w1 + i)) playerScore) pss
          = imap ((λ i playerScore,
                     playerRound roundData course (now env)
                       (uuid env (uuids_drawn w + i)) playerScore) ∘ S) pss)
    as Himap.
  { apply imap_ext. intros i x _. cbn. do 2 f_equal. lia. }
  rewrite Himap in Hrun, Htable.
  exists w'. rewrite Hrun, Hdrawn, Hu, Hcourses, Hc, Htable, Hr.
  cbn [imap foldl length round_id playerRound]. rewrite Nat.add_0_r.
  split_and!; [|lia|done|done].
  by rewrite <- app_assoc.
Qed.

Lemma no_missing_players (users : gmap string User) (ids : list string) :
  (∀ id, id ∈ ids -> is_Some (users !! id)) ->
  filter (λ result : option User, result = None) ((λ id, users !! id) <$> ids) = [].
Proof.
  induction ids as [|id ids IH]; intros Hall; [done|].
  cbn [fmap list_fmap]. rewrite filter_cons.
  destruct (Hall id) as [user Huser]; [by left|].
  rewrite decide_False by (rewrite Huser; discriminate).
  apply IH. intros ? ?. apply Hall. by right.
Qed.

Lemma imap_userIds roundData course timestamp (roundId : nat → string)
    (playerScores : list PlayerScore) :
  round_userId <$> imap (λ i playerScore,
                           playerRound roundData course timestamp (roundId i)
                                       playerScore) playerScores
  = playerScore_playerId <$> playerScores.
Proof.
  revert roundId. induction playerScores as [|ps pss IH]; intros roundId; [done|].
  cbn [imap fmap list_fmap]. f_equal. apply (IH (roundId ∘ S)).
Qed.

Lemma createMultiPlayerRound_run env requestingUserId roundData course w :
  let playerIds := playerScore_playerId <$> multi_playerScores roundData in
  (∀ c, throws env c = false) ->
  requestingUserId ∈ playerIds ->
  (∀ id, id ∈ playerIds -> is_Some (users_table w !! id)) ->
  courses_table w !! multi_courseId roundData = Some course ->
  ∃ w',
    createMultiPlayerRound env requestingUserId roundData w
    = (w', Ok {| status := 201;
                 json := CreatedJson
                           ("Successfully created "
                              +:+ pretty (length (multi_playerScores roundData))
                              +:+ " rounds")
                           (createdRounds env roundData course w) |})
    ∧ uuids_drawn w' = (uuids_drawn w + length (multi_playerScores roundData))%nat
    ∧ courses_table w' = courses_table w
    ∧ rounds_table w'
      = foldl (λ tbl round, <[round_id round := round]> tbl)
              (rounds_table w) (createdRounds env roundData course w).
Proof.
  cbv zeta. intros Hok Hin Hknown Hcourse.
  destruct (createPlayerRounds_run env roundData course
              (multi_playerScores roundData) Hok [] w)
    as (w' & Hrun & Hdrawn & Hcourses & Htable).
  exists w'. split_and!; try done.
  unfold createMultiPlayerRound. rewrite try_catch_run.
  rewrite decide_True by exact Hin.
  rewrite bind_run, gets_all by (intros; apply Hok).
  rewrite no_missing_players by exact Hknown.
  rewrite decide_False by (cbn; lia).
  rewrite bind_run. unfold send_get_course, send. rewrite Hok.
  unfold gets. rewrite Hcourse.
  rewrite bind_run, Hrun. cbn [app]. unfold ret, createdRounds.
  by rewrite length_imap.
Qed.

Lemma createdRounds_lookup env roundData course w i :
  createdRounds env roundData course w !! i
  = playerRound roundData course (now env) (uuid env (uuids_drawn w + i))
      <$> multi_playerScores roundData !! i.
Proof. unfold createdRounds. by rewrite list_lookup_imap. Qed.

Lemma createdRounds_userIds env roundData course w :
  round_userId <$> createdRounds env roundData course w
  = playerScore_playerId <$> multi_playerScores roundData.
Proof. apply imap_userIds. Qed.

(** Distinct identifiers drawn give distinct keys; a key that was not drawn
    is not the key of a round created. *)
Lemma createdRounds_NoDup env roundData course w :
  (∀ i j, (i < j < length (multi_playerScores roundData))%nat ->
          uuid env (uuids_drawn w + i) ≠ uuid env (uuids_drawn w + j)) ->
  NoDup (round_id <$> createdRounds env roundData course w).
Proof.
  intros Hdistinct. apply NoDup_alt. intros i1 i2 key H1 H2.
  rewrite list_lookup_fmap, createdRounds_lookup in H1.
  rewrite list_lookup_fmap, createdRounds_lookup in H2.
  destruct (multi_playerScores roundData !! i1) eqn:E1; [|done].
  destruct (multi_playerScores roundData !! i2) eqn:E2; [|done].
  apply lookup_lt_Some in E1, E2. cbn in H1, H2.
  destruct (Nat.lt_total i1 i2) as [Hlt|[Heq|Hlt]]; [|done|].
  - destruct (Hdistinct i1 i2); [lia|congruence].
  - destruct (Hdistinct i2 i1); [lia|congruence].
Qed.

Lemma createdRounds_fresh env roundData course w key :
  (∀ i, (i < length (multi_playerScores roundData))%nat ->
        key ≠ uuid env (uuids_drawn w + i)) ->
  key ∉ round_id <$> createdRounds env roundData course w.
Proof.
  intros Hkey Helem. apply list_elem_of_lookup in Helem as [i Hi].
  rewrite list_lookup_fmap, createdRounds_lookup in Hi.
  destruct (multi_playerScores roundData !! i) eqn:E; [|done].
  apply lookup_lt_Some in E. cbn in Hi. injection Hi as Hi.
  by destruct (Hkey i E).
Qed.

(** X17. When the store answers, the requester is one of the players, every
    player is registered and the course exists, [createMultiPlayerRound]
    answers 201 with one round per player score, in the order of the
    scores: round i is the round of player i under the i-th identifier
    drawn, all rounds carry the date and the course of the request, and each
    lists every other player and never its own. *)
Theorem createMultiPlayerRound_one_round_per_player
    (env : Env) (requestingUserId : string)
    (roundData : CreateMultiPlayerRoundInput) (course : Course) (w : World) :
  let playerIds := playerScore_playerId <$> multi_playerScores roundData in
  (∀ c, throws env c = false) ->
  requestingUserId ∈ playerIds ->
  (∀ id, id ∈ playerIds -> is_Some (users_table w !! id)) ->
  courses_table w !! multi_courseId roundData = Some course ->
  ∃ w' rounds,
    createMultiPlayerRound env requestingUserId roundData w
    = (w', Ok {| status := 201;
                 json := CreatedJson
                           ("Successfully created "
                              +:+ pretty (length (multi_playerScores roundData))
                              +:+ " rounds")
                           rounds |})
    ∧ round_userId <$> rounds = playerIds
    ∧ (∀ i playerScore,
         multi_playerScores roundData !! i = Some playerScore ->
         rounds !! i
         = Some (playerRound roundData course (now env)
                   (uuid env (uuids_drawn w + i)) playerScore))
    ∧ (∀ round,
         round ∈ rounds ->
         round_date round = multi_date roundData
         ∧ round_courseId round = multi_courseId roundData
         ∧ (round_userId round ∉ round_players round)
         ∧ ∀ id, id ∈ playerIds ->
                 id = round_userId round ∨ id ∈ round_players round)
    ∧ uuids_drawn w' = (uuids_drawn w + length (multi_playerScores roundData))%nat.
Proof.
  cbv zeta. intros Hok Hin Hknown Hcourse.
  destruct (createMultiPlayerRound_run env requestingUserId roundData course w
              Hok Hin Hknown Hcourse) as (w' & Hrun & Hdrawn & _).
  exists w', (createdRounds env roundData course w). split_and!.
  - exact Hrun.
  - apply createdRounds_userIds.
  - intros i playerScore Hi. by rewrite createdRounds_lookup, Hi.
  - intros round Hround. apply list_elem_of_lookup in Hround as [i Hi].
    rewrite createdRounds_lookup in Hi.
    destruct (multi_playerScores roundData !! i) as [playerScore|]; [|done].
    cbn in Hi. injection Hi as <-. cbn [playerRound round_date round_courseId
      round_userId round_players]. split_and!; [done|done| |].
    + intros Hself. apply list_elem_of_filter in Hself as [Hself _]. done.
    + intros id Hid.
      destruct (decide (id = playerScore_playerId playerScore)) as [->|Hne];
        [by left|right]. by apply list_elem_of_filter.
  - exact Hdrawn.
Qed.

Lemma createMultiPlayerRound_one_round_per_player_witness :
  ∃ w' rounds,
    createMultiPlayerRound reliable "kari" sample_multi_input two_player_world
    = (w', Ok {| status := 201;
                 json := CreatedJson "Successfully created 2 rounds" rounds |})
    ∧ round_userId <$> rounds = ["kari"; "ola"].
Proof.
  assert (∀ c, throws reliable c = false) as Hok by (intros c; reflexivity).
  assert ("kari" ∈ playerScore_playerId <$> multi_playerScores sample_multi_input)
    as Hin by (cbn; left).
  assert (∀ id, id ∈ playerScore_playerId <$> multi_playerScores sample_multi_input ->
            is_Some (users_table two_player_world !! id)) as Hknown.
  { intros id Hid. cbn in Hid. rewrite !elem_of_cons, elem_of_nil in Hid.
    destruct Hid as [->|[->|[]]]; by eexists. }
  assert (courses_table two_player_world !! multi_courseId sample_multi_input
          = Some sample_course) as Hcourse by reflexivity.
  destruct (createMultiPlayerRound_one_round_per_player reliable "kari"
              sample_multi_input sample_course two_player_world
              Hok Hin Hknown Hcourse) as (w' & rounds & Hrun & Hids & _).
  exists w', rounds. split; [exact Hrun | exact Hids].
Defined.

Lemma inserts_lookup_other (rounds : list Round) (tbl : gmap string Round) key :
  key ∉ round_id <$> rounds ->
  foldl (λ tbl round, <[round_id round := round]> tbl) tbl rounds !! key
  = tbl !! key.
Proof.
  revert tbl. induction rounds as [|r rounds IH]; intros tbl Hkey; [done|].
  cbn [fmap list_fmap] in Hkey. apply not_elem_of_cons in Hkey as [Hne Hkey].
  cbn [foldl]. rewrite IH by exact Hkey. by rewrite lookup_insert_ne.
Qed.

Lemma inserts_lookup (rounds : list Round) (tbl : gmap string Round) round :
  NoDup (round_id <$> rounds) -> round ∈ rounds ->
  foldl (λ tbl round, <[round_id round := round]> tbl) tbl rounds
    !! round_id round = Some round.
Proof.
  revert tbl. induction rounds as [|r rounds IH]; intros tbl Hnodup Hin.
  { by apply elem_of_nil in Hin. }
  cbn [fmap list_fmap] in Hnodup. apply NoDup_cons in Hnodup as [Hfresh Hnodup].
  cbn [foldl]. apply elem_of_cons in Hin as [->|Hin].
  - rewrite inserts_lookup_other by exact Hfresh. by rewrite lookup_insert_eq.
  - by apply IH.
Qed.

Lemma inserts_keyed (rounds : list Round) (tbl : gmap string Round) :
  keyed_by_id tbl ->
  keyed_by_id (foldl (λ tbl round, <[round_id round := round]> tbl) tbl rounds).
Proof.
  revert tbl. induction rounds as [|r rounds IH]; intros tbl Hkeyed; [done|].
  cbn [foldl]. apply IH. intros key round Hkey.
  apply lookup_insert_Some in Hkey as [[<- <-]|[_ Hkey]]; [done|].
  by apply Hkeyed.
Qed.

(** X18. When [createMultiPlayerRound] succeeds and the identifiers drawn
    are distinct, every player's round is stored under its identifier, a
    round under any other identifier is as it was, the courses are
    unchanged, and a table that keeps every round under its own identifier
    still does. *)
Theorem createMultiPlayerRound_stores
    (env : Env) (requestingUserId : string)
    (roundData : CreateMultiPlayerRoundInput) (course : Course) (w : World) :
  let playerIds := playerScore_playerId <$> multi_playerScores roundData in
  let roundId (i : nat) := uuid env (uuids_drawn w + i) in
  (∀ c, throws env c = false) ->
  requestingUserId ∈ playerIds ->
  (∀ id, id ∈ playerIds -> is_Some (users_table w !! id)) ->
  courses_table w !! multi_courseId roundData = Some course ->
  (∀ i j, (i < j < length (multi_playerScores roundData))%nat ->
          roundId i ≠ roundId j) ->
  let w' := (createMultiPlayerRound env requestingUserId roundData w).1 in
  (∀ i playerScore,
     multi_playerScores roundData !! i = Some playerScore ->
     rounds_table w' !! roundId i
     = Some (playerRound roundData course (now env) (roundId i) playerScore))
  ∧ (∀ key,
       (∀ i, (i < length (multi_playerScores roundData))%nat -> key ≠ roundId i) ->
       rounds_table w' !! key = rounds_table w !! key)
  ∧ courses_table w' = courses_table w
  ∧ (keyed_by_id (rounds_table w) -> keyed_by_id (rounds_table w')).
Proof.
  cbv zeta. intros Hok Hin Hknown Hcourse Hdistinct.
  destruct (createMultiPlayerRound_run env requestingUserId roundData course w
              Hok Hin Hknown Hcourse) as (w' & -> & _ & Hcourses & Htable).
  cbn [fst]. rewrite Htable. split_and!.
  - intros i playerScore Hi.
    change (uuid env (uuids_drawn w + i))
      with (round_id (playerRound roundData course (now env)
                        (uuid env (uuids_drawn w + i)) playerScore)).
    apply inserts_lookup; [by apply createdRounds_NoDup|].
    apply list_elem_of_lookup. exists i. by rewrite createdRounds_lookup, Hi.
  - intros key Hkey. apply inserts_lookup_other. by apply createdRounds_fresh.
  - exact Hcourses.
  - apply inserts_keyed.
Qed.

Lemma createMultiPlayerRound_stores_witness :
  courses_table
    (createMultiPlayerRound reliable "kari" sample_multi_input two_player_world).1
  = courses_table two_player_world.
Proof.
  assert (∀ c, throws reliable c = false) as Hok by (intros c; reflexivity).
  assert ("kari" ∈ playerScore_playerId <$> multi_playerScores sample_multi_input)
    as Hin by (cbn; left).
  assert (∀ id, id ∈ playerScore_playerId <$> multi_playerScores sample_multi_input ->
            is_Some (users_table two_player_world !! id)) as Hknown.
  { intros id Hid. cbn in Hid. rewrite !elem_of_cons, elem_of_nil in Hid.
    destruct Hid as [->|[->|[]]]; by eexists. }
  assert (courses_table two_player_world !! multi_courseId sample_multi_input
          = Some sample_course) as Hcourse by reflexivity.
  assert (∀ i j, (i < j < length (multi_playerScores sample_multi_input))%nat ->
            uuid reliable (uuids_drawn two_player_world + i)
            ≠ uuid reliable (uuids_drawn two_player_world + j)) as Hdistinct.
  { intros i j Hij. cbn [length multi_playerScores sample_multi_input] in Hij.
    assert (i = 0%nat ∧ j = 1%nat) as [-> ->] by lia. by vm_compute. }
  exact (proj1 (proj2 (proj2
    (createMultiPlayerRound_stores reliable "kari" sample_multi_input
       sample_course two_player_world Hok Hin Hknown Hcourse Hdistinct)))).
Defined.

(** X19. What is created together is deleted together: after a successful
    [createMultiPlayerRound] of two players or more, [deleteRound] by any
    one of them on their round answers 200 and removes the round of every
    player of the game, while the rounds the table had on other dates
    stay. *)
Theorem created_game_deleted_together
    (env : Env) (requestingUserId : string)
    (roundData : CreateMultiPlayerRoundInput) (course : Course) (w : World)
    (i : nat) (playerScore : PlayerScore) :
  let playerIds := playerScore_playerId <$> multi_playerScores roundData in
  let roundId (i : nat) := uuid env (uuids_drawn w + i) in
  let count := length (multi_playerScores roundData) in
  (∀ c, throws env c = false) ->
  requestingUserId ∈ playerIds ->
  (∀ id, id ∈ playerIds -> is_Some (users_table w !! id)) ->
  courses_table w !! multi_courseId roundData = Some course ->
  (∀ i j, (i < j < count)%nat -> roundId i ≠ roundId j) ->
  keyed_by_id (rounds_table w) ->
  multi_playerScores roundData !! i = Some playerScore ->
  (∃ other, other ∈ playerIds ∧ other ≠ playerScore_playerId playerScore) ->
  let created := (createMultiPlayerRound env requestingUserId roundData w).1 in
  let run :=
    deleteRound env (playerScore_playerId playerScore) (roundId i) created in
  (∃ message deletedCount,
     run.2 = Ok {| status := 200; json := DeletedJson message deletedCount |})
  ∧ (∀ j, (j < count)%nat -> rounds_table run.1 !! roundId j = None)
  ∧ (∀ key round,
       rounds_table w !! key = Some round ->
       (∀ j, (j < count)%nat -> key ≠ roundId j) ->
       round_date round ≠ multi_date roundData ->
       rounds_table run.1 !! key = Some round).
Proof.
  cbv zeta. intros Hok Hin Hknown Hcourse Hdistinct Hkeyed Hi (other & Hother & Hne).
  destruct (createMultiPlayerRound_run env requestingUserId roundData course w
              Hok Hin Hknown Hcourse) as (created & -> & _ & _ & Hcreated).
  cbn [fst].
  set (target := playerRound roundData course (now env)
                   (uuid env (uuids_drawn w + i)) playerScore).
  assert (∀ j other_score,
            multi_playerScores roundData !! j = Some other_score ->
            rounds_table created !! uuid env (uuids_drawn w + j)
            = Some (playerRound roundData course (now env)
                      (uuid env (uuids_drawn w + j)) other_score)) as Hstored.
  { intros j other_score Hj. rewrite Hcreated.
    change (uuid env (uuids_drawn w + j))
      with (round_id (playerRound roundData course (now env)
                        (uuid env (uuids_drawn w + j)) other_score)).
    apply inserts_lookup; [by apply createdRounds_NoDup|].
    apply list_elem_of_lookup. exists j. by rewrite createdRounds_lookup, Hj. }
  assert (keyed_by_id (rounds_table created)) as Hkeyed'.
  { rewrite Hcreated. by apply inserts_keyed. }
  assert (round_players target ≠ []) as Hplayers.
  { intros Hnil.
    assert (other ∈ round_players target) as Hin'.
    { cbn [target playerRound round_players]. by apply list_elem_of_filter. }
    rewrite Hnil in Hin'. by apply elem_of_nil in Hin'. }
  destruct (deleteRound_related_run env (playerScore_playerId playerScore)
              (uuid env (uuids_drawn w + i)) created target
              Hok (Hstored i playerScore Hi) eq_refl Hplayers)
    as (w' & -> & _ & Htable & _).
  cbn [fst snd]. split_and!.
  - by eexists _, _.
  - intros j Hj.
    destruct (lookup_lt_is_Some_2 (multi_playerScores roundData) j Hj)
      as [other_score Hj'].
    rewrite Htable. rewrite decide_True; [done|].
    apply (relatedRounds_ids _ _ _ _ _ Hkeyed' (Hstored j other_score Hj')).
    cbn [target playerRound round_date round_courseId round_userId round_players].
    split_and!; try done.
    destruct (decide (playerScore_playerId other_score
                      = playerScore_playerId playerScore)) as [->|Hdiff];
      [left|right].
    apply list_elem_of_filter. split; [done|].
    apply list_elem_of_fmap. exists other_score. split; [done|].
    by eapply list_elem_of_lookup_2.
  - intros key round Hkey Hfresh Hdate.
    assert (rounds_table created !! key = Some round) as Hkey'.
    { rewrite Hcreated, inserts_lookup_other; [done|].
      by apply createdRounds_fresh. }
    rewrite Htable. rewrite decide_False; [done|].
    intros Hrelated.
    apply (relatedRounds_ids _ _ _ _ _ Hkeyed' Hkey') in Hrelated as (Hd & _).
    cbn [target playerRound round_date] in Hd. done.
Qed.

Lemma created_game_deleted_together_witness :
  rounds_table
    (deleteRound reliable "kari"
       (uuid reliable (uuids_drawn two_player_world + 0))
       (createMultiPlayerRound reliable "kari" sample_multi_input
          two_player_world).1).1
    !! uuid reliable (uuids_drawn two_player_world + 1) = None.
Proof.
  assert (∀ c, throws reliable c = false) as Hok by (intros c; reflexivity).
  assert ("kari" ∈ playerScore_playerId <$> multi_playerScores sample_multi_input)
    as Hin by (cbn; left).
  assert (∀ id, id ∈ playerScore_playerId <$> multi_playerScores sample_multi_input ->
            is_Some (users_table two_player_world !! id)) as Hknown.
  { intros id Hid. cbn in Hid. rewrite !elem_of_cons, elem_of_nil in Hid.
    destruct Hid as [->|[->|[]]]; by eexists. }
  assert (courses_table two_player_world !! multi_courseId sample_multi_input
          = Some sample_course) as Hcourse by reflexivity.
  assert (∀ i j, (i < j < length (multi_playerScores sample_multi_input))%nat ->
            uuid reliable (uuids_drawn two_player_world + i)
            ≠ uuid reliable (uuids_drawn two_player_world + j)) as Hdistinct.
  { intros i j Hij. cbn [length multi_playerScores sample_multi_input] in Hij.
    assert (i = 0%nat ∧ j = 1%nat) as [-> ->] by lia. by vm_compute. }
  assert (keyed_by_id (rounds_table two_player_world)) as Hkeyed.
  { intros key round Hkey. cbn [rounds_table two_player_world] in Hkey.
    by rewrite lookup_empty in Hkey. }
  assert (∃ other,
            other ∈ playerScore_playerId <$> multi_playerScores sample_multi_input
            ∧ other ≠ "kari") as Hother.
  { exists "ola". split; [cbn; right; left | discriminate]. }
  assert (1 < length (multi_playerScores sample_multi_input))%nat as Hsecond
    by (cbn; lia).
  exact (proj1 (proj2
    (created_game_deleted_together reliable "kari" sample_multi_input
       sample_course two_player_world 0
       {| playerScore_playerId := "kari";
          playerScore_holes :=
            replicate 9 {| hole_par := int 4; hole_strokes := int 5 |} |}
       Hok Hin Hknown Hcourse Hdistinct Hkeyed eq_refl Hother)) 1%nat Hsecond).
Defined.

(** * The shape of the handicap history *)

Lemma handicapHistory_length rounds : length (handicapHistory rounds) = length rounds.
Proof. unfold handicapHistory. apply length_imap. Qed.

(** X20. The history has one entry per round, with the date and the
    differential of that round, and it is causal: entry i is computed from
    the rounds up to i alone, so rounds that follow never rewrite the
    entries before them. *)
Theorem handicapHistory_prefix_stable (rounds later : list Round) :
  take (length rounds) (handicapHistory (rounds ++ later)) = handicapHistory rounds
  ∧ length (handicapHistory rounds) = length rounds
  ∧ entry_date <$> handicapHistory rounds = round_date <$> rounds
  ∧ entry_scoreDifferential <$> handicapHistory rounds
    = round_scoreDifferential <$> rounds.
Proof.
  split_and!.
  - apply list_eq. intros i.
    destruct (decide (i < length rounds)%nat) as [Hi|Hi].
    + rewrite lookup_take_lt by exact Hi.
      rewrite !handicapHistory_lookup.
      rewrite lookup_app_l by exact Hi.
      rewrite take_app_le by lia. done.
    + rewrite lookup_take_ge by lia.
      symmetry. apply lookup_ge_None. rewrite handicapHistory_length. lia.
  - apply handicapHistory_length.
  - apply list_eq. intros i. rewrite !list_lookup_fmap, handicapHistory_lookup.
    by destruct (rounds !! i).
  - apply list_eq. intros i. rewrite !list_lookup_fmap, handicapHistory_lookup.
    by destruct (rounds !! i).
Qed.

(** X21. [getHandicapHistory] changes no table and answers with 200 or 500.
    With 200 the history has as many entries as the table has rounds of the
    user, and every entry carries the date and the differential of a round
    of that user. *)
Theorem getHandicapHistory_only_own_rounds (env : Env) (userId : string) (w : World) :
  let run := getHandicapHistory env userId w in
  rounds_table run.1 = rounds_table w
  ∧ users_table run.1 = users_table w
  ∧ courses_table run.1 = courses_table w
  ∧ (∃ response, run.2 = Ok response
                 ∧ (status response = 200%nat ∨ status response = 500%nat))
  ∧ ∀ entries,
      run.2 = Ok {| status := 200; json := HistoryJson entries |} ->
      length entries
      = length (filter (λ round, round_userId round = userId)
                       (map_to_list (rounds_table w)).*2)
      ∧ ∀ entry, entry ∈ entries ->
          ∃ key round,
            rounds_table w !! key = Some round
            ∧ round_userId round = userId
            ∧ entry_date entry = round_date round
            ∧ entry_scoreDifferential entry = round_scoreDifferential round.
Proof.
  cbv zeta. rewrite getHandicapHistory_run. cbv zeta.
  destruct (throws env _).
  { split_and!; try done.
    eexists. split; [reflexivity|]. by right. }
  split_and!; try done.
  { eexists. split; [reflexivity|]. by left. }
  intros entries [= <-]. split.
  - rewrite handicapHistory_length. unfold index_scan.
    rewrite filter_expression_none by done.
    cbn [ScanIndexForward Limit all_rounds_query].
    rewrite merge_sort_Permutation.
    f_equal. apply list_filter_iff. intros round.
    unfold key_condition. cbn [all_rounds_query query_userId query_date]. tauto.
  - intros entry Hentry. apply list_elem_of_lookup in Hentry as [i Hi].
    rewrite handicapHistory_lookup in Hi.
    destruct (index_scan _ _ !! i) as [round|] eqn:Hround; [|done].
    cbn in Hi. injection Hi as <-.
    apply list_elem_of_lookup_2 in Hround.
    apply index_scan_elem in Hround as ((Huser & _) & _ & key & Hkey).
    exists key, round. done.
Qed.

(** * The values computed in double precision *)

Import Binary64.

Lemma mul_comm (x y : double) : mul x y = mul y x.
Proof.
  unfold mul. destruct x as [sx|sx| |sx mx ex], y as [sy|sy| |sy my ey];
    cbn [SFmul]; rewrite ?(xorb_comm sx sy); try reflexivity.
  by rewrite Pos.mul_comm, Z.add_comm.
Qed.



Global Instance le_total : Total le.
Proof.
  intros a b. unfold le.
  destruct (Qlt_le_dec (value b) (value a)) as [H|H]; [right|left]; lra.
Qed.

Global Instance le_trans : Transitive le.
Proof. intros a b c. unfold le. lra. Qed.

Global Instance le_refl : Reflexive le.
Proof. intros a. unfold le. lra. Qed.

Lemma sort_ascending_sorted xs : StronglySorted le (sort_ascending xs).
Proof. apply Sorted_StronglySorted; [apply _|]. apply Sorted_merge_sort; apply _. Qed.

Lemma sort_ascending_permutation xs : sort_ascending xs ≡ₚ xs.
Proof. apply merge_sort_Permutation. Qed.

Lemma value_zero : value (of_Z 0) = 0%Q.
Proof. reflexivity. Qed.

Lemma value_54 : (value (of_Z 54) == 54)%Q.
Proof. vm_compute. reflexivity. Qed.

Lemma lt_spec (a b : double) :
  is_nan a = false -> is_nan b = false ->
  lt a b = true <-> (value a < value b)%Q.
Proof.
  intros Ha Hb. unfold lt. rewrite Ha, Hb. cbn [negb andb].
  rewrite negb_true_iff. split.
  - intros H. apply Qnot_le_lt. intros Hle.
    apply Qle_bool_iff in Hle. congruence.
  - intros H. destruct (Qle_bool (value b) (value a)) eqn:E; [|done].
    apply Qle_bool_iff in E. lra.
Qed.

Lemma lt_false (a b : double) :
  is_nan a = false -> is_nan b = false ->
  lt a b = false -> (value b <= value a)%Q.
Proof.
  intros Ha Hb Hlt. apply Qnot_lt_le. intros H.
  apply (lt_spec a b Ha Hb) in H. congruence.
Qed.

(** [Math.max(0, Math.min(54, x))] is a number between 0 and 54, unless x
    is NaN. *)
Lemma clamp_range (x : double) :
  is_nan x = false ->
  let clamped := Math_max (of_Z 0) (Math_min (of_Z 54) x) in
  is_nan clamped = false ∧ (0 <= value clamped <= 54)%Q.
Proof.
  intros Hx. cbv zeta. pose proof value_54 as H54.
  assert (is_nan (of_Z 54) = false) as Hn54 by reflexivity.
  assert (is_nan (Math_min (of_Z 54) x) = false
          ∧ (value (Math_min (of_Z 54) x) <= 54)%Q) as [Hnan Hmin].
  { unfold Math_min. rewrite Hx, Hn54. cbn [orb].
    destruct (lt (of_Z 54) x) eqn:E1; [split; [done|lra]|].
    destruct (lt x (of_Z 54)) eqn:E2.
    - split; [done|]. apply lt_spec in E2; [|done..]. lra.
    - apply lt_false in E1; [|done..].
      change (of_Z 54) with (S754_finite false 7599824371187712 (-47)) in *.
      cbv iota. split; [done|]. lra. }
  unfold Math_max. rewrite Hnan. change (is_nan (of_Z 0)) with false. cbn [orb].
  destruct (lt (of_Z 0) (Math_min (of_Z 54) x)) eqn:E1.
  { split; [done|]. apply lt_spec in E1; [|done..]. rewrite value_zero in E1. lra. }
  destruct (lt (Math_min (of_Z 54) x) (of_Z 0)) eqn:E2.
  { split; [done|]. rewrite value_zero. lra. }
  apply lt_false in E1; [|done..]. apply lt_false in E2; [|done..].
  rewrite value_zero in E1, E2.
  change (of_Z 0) with (S754_zero false). cbv iota. split; [done|].
  change (value (S754_zero false)) with 0%Q. lra.
Qed.

(** ** The score differential *)

(** C2. In double precision, for every score, rating and slope, the
    differential of an 18-hole round is ((score - rating) * 113) / slope,
    each operation being that of doubles, and that of a 9-hole round is the
    same with the score and the rating doubled first: a 9-hole round equals
    the 18-hole round with doubled inputs (40, 36 against 80, 72), and an
    omitted number of holes stands for 18.  A score of 72 on a course rated
    72.0 with slope 113 has differential 0.  The quotient is returned as it
    is: 86 on a course rated 70.7 with slope 102 gives 16.949999999999996,
    where a rounding to one decimal would give 16.9. *)
Theorem calculateScoreDifferential_formula
    (totalScore courseRating slopeRating : double) :
  calculateScoreDifferential totalScore courseRating slopeRating (Some (of_Z 18))
  = div (mul (sub totalScore courseRating) (of_Z 113)) slopeRating
  ∧ calculateScoreDifferential totalScore courseRating slopeRating (Some (of_Z 9))
    = div (mul (sub (mul totalScore (of_Z 2)) (mul courseRating (of_Z 2)))
               (of_Z 113))
          slopeRating
  ∧ calculateScoreDifferential totalScore courseRating slopeRating (Some (of_Z 9))
    = calculateScoreDifferential (mul (of_Z 2) totalScore)
        (mul (of_Z 2) courseRating) slopeRating (Some (of_Z 18))
  ∧ calculateScoreDifferential totalScore courseRating slopeRating None
    = calculateScoreDifferential totalScore courseRating slopeRating
        (Some (of_Z 18))
  ∧ calculateScoreDifferential (of_Z 40) (of_Z 36) (of_Z 113) (Some (of_Z 9))
    = calculateScoreDifferential (of_Z 80) (of_Z 72) (of_Z 113) (Some (of_Z 18))
  ∧ calculateScoreDifferential (of_Z 72) (of_Z 72) (of_Z 113) (Some (of_Z 18))
    = of_Z 0
  ∧ (let differential :=
       calculateScoreDifferential (of_Z 86) (dec 707 10) (of_Z 102)
         (Some (of_Z 18)) in
     differential = dec 16949999999999996 1000000000000000
     ∧ div (Math_round (mul differential (of_Z 10))) (of_Z 10) = dec 169 10
     ∧ differential ≠ dec 169 10).
Proof.
  assert (∀ s r slope,
            calculateScoreDifferential s r slope (Some (of_Z 18))
            = div (mul (sub s r) (of_Z 113)) slope) as H18.
  { intros s r slope. unfold calculateScoreDifferential. cbn [default].
    by replace (strict_equal (of_Z 18) (of_Z 9)) with false
      by (vm_compute; reflexivity). }
  assert (∀ s r slope,
            calculateScoreDifferential s r slope (Some (of_Z 9))
            = div (mul (sub (mul s (of_Z 2)) (mul r (of_Z 2))) (of_Z 113)) slope)
    as H9.
  { intros s r slope. unfold calculateScoreDifferential. cbn [default].
    by replace (strict_equal (of_Z 9) (of_Z 9)) with true
      by (vm_compute; reflexivity). }
  split_and!.
  - apply H18.
  - apply H9.
  - by rewrite H9, H18, !(mul_comm (of_Z 2)).
  - reflexivity.
  - vm_compute. reflexivity.
  - vm_compute. reflexivity.
  - cbv zeta. split_and!; [vm_compute; reflexivity..|].
    vm_compute. discriminate.
Qed.

(** ** The rounding of the handicap *)




(** The product of the mean and 10 is a double: the double written 0.35
    lies below 0.35 and its product with 10 is 3.5, so that it is rounded
    to 0.4; the differentials 0.1, 4.6 and 9 have the handicap 2.3. *)
Example newHandicap_of_product :
  Handicap.newHandicap [dec 35 100] = dec 4 10
  ∧ (value (dec 35 100) < 35 # 100)%Q
  ∧ Handicap.computeHandicap [dec 1 10; dec 46 10; of_Z 9] = dec 23 10.
Proof. split_and!; vm_compute; reflexivity. Qed.

(** ** The handicap of the history *)

Lemma history_countToUse n :
  (3 ≤ n)%nat -> historyCount n = Some (History.countToUse n).
Proof.
  intros Hn. unfold historyCount, History.countToUse.
  case_decide; [done|]. case_decide; [|by rewrite !decide_True by lia].
  f_equal.
  do 20 (destruct n as [|n]; [try lia; vm_compute; reflexivity|]). lia.
Qed.

Lemma history_countToUse_le n : (3 ≤ n)%nat -> (History.countToUse n ≤ n)%nat.
Proof.
  intros Hn. pose proof (history_countToUse n Hn) as H.
  unfold historyCount in H. repeat case_decide; try lia.
  - injection H as <-. lia.
  - injection H as <-. apply (Nat.Div0.div_le_upper_bound (n * 4) 10 n). lia.
  - injection H as <-. lia.
Qed.

Lemma history_bestDiffs_length currentDiffs :
  (3 ≤ length currentDiffs)%nat ->
  length (History.bestDiffs currentDiffs) = History.countToUse (length currentDiffs).
Proof.
  intros Hn. unfold History.bestDiffs, History.sortedDiffs, slice0.
  rewrite length_take, (Permutation_length (sort_ascending_permutation _)).
  pose proof (history_countToUse_le _ Hn). lia.
Qed.

Lemma history_lookup rounds i :
  History.handicapHistory rounds !! i
  = (λ round,
       {| History.history_date := History.played_date round;
          History.history_handicap :=
            History.entryHandicap
              (History.played_scoreDifferential <$> take (i + 1) rounds);
          History.history_scoreDifferential :=
            History.played_scoreDifferential round |})
      <$> rounds !! i.
Proof. unfold History.handicapHistory. by rewrite list_lookup_imap. Qed.

(** C6. In double precision, entry i of the history is computed from the
    first n = i + 1 rounds alone.  Its handicap is exactly 54 when n < 3
    (and so is the entry).  Otherwise the differentials of the prefix are
    sorted ascending, the first countToUse of them are selected, countToUse
    being 8 from 20 rounds on, floor(n x 0.4) from 6 on and 1 from 3 on:
    they are the lowest of the prefix, each at most any that is left out
    (no differential being NaN); their mean is multiplied by the double
    0.96 and clamped into [0, 54], and the entry carries the result rounded
    to one decimal.  The algorithm
    is not the authoritative one: on the differentials 5, 10, 15 it gives
    4.8 where [computeHandicap] gives 7.5. *)
Theorem history_handicap_algorithm
    (rounds : list History.Played) (i : nat) (round : History.Played) :
  rounds !! i = Some round ->
  let n := (i + 1)%nat in
  let currentDiffs := History.played_scoreDifferential <$> take n rounds in
  let best := History.bestDiffs currentDiffs in
  let rest := drop (length best) (History.sortedDiffs currentDiffs) in
  length currentDiffs = n
  ∧ History.handicapHistory rounds !! i
    = Some {| History.history_date := History.played_date round;
              History.history_handicap := History.entryHandicap currentDiffs;
              History.history_scoreDifferential :=
                History.played_scoreDifferential round |}
  ∧ History.entryHandicap currentDiffs
    = div (Math_round (mul (History.handicap currentDiffs) (of_Z 10))) (of_Z 10)
  ∧ ((n < 3)%nat ->
     History.handicap currentDiffs = of_Z 54
     ∧ History.entryHandicap currentDiffs = of_Z 54)
  ∧ ((3 ≤ n)%nat ->
     historyCount n = Some (length best)
     ∧ History.sortedDiffs currentDiffs = best ++ rest
     ∧ best ++ rest ≡ₚ currentDiffs
     ∧ (Forall (λ differential, is_nan differential = false) currentDiffs ->
        Sorted le (best ++ rest)
        ∧ ∀ x y, x ∈ best -> y ∈ rest -> (value x <= value y)%Q)
     ∧ History.avgDiff currentDiffs = div (sum best) (len best)
     ∧ History.handicap currentDiffs
       = Math_max (of_Z 0)
           (Math_min (of_Z 54) (mul (History.avgDiff currentDiffs) (dec 96 100)))
     ∧ (is_nan (mul (History.avgDiff currentDiffs) (dec 96 100)) = false ->
        (0 <= value (History.handicap currentDiffs) <= 54)%Q))
  ∧ History.entryHandicap [of_Z 5; of_Z 10; of_Z 15] = dec 48 10
  ∧ Handicap.computeHandicap [of_Z 5; of_Z 10; of_Z 15] = dec 75 10.
Proof.
  intros Hi n currentDiffs best rest.
  assert (length currentDiffs = n) as Hlen.
  { unfold currentDiffs. rewrite length_fmap, length_take.
    apply lookup_lt_Some in Hi. lia. }
  split_and!.
  - exact Hlen.
  - by rewrite history_lookup, Hi.
  - reflexivity.
  - intros Hn. unfold History.entryHandicap, History.handicap.
    rewrite decide_False by lia. split; [reflexivity|].
    vm_compute. reflexivity.
  - intros Hn. assert (3 ≤ length currentDiffs)%nat as Hn' by lia.
    assert (length best = History.countToUse n) as Hbest.
    { unfold best. by rewrite history_bestDiffs_length, Hlen. }
    assert (History.sortedDiffs currentDiffs = best ++ rest) as Hsplit.
    { unfold rest, best, History.bestDiffs, slice0.
      rewrite length_take_le; [by rewrite take_drop|].
      unfold History.sortedDiffs.
      rewrite (Permutation_length (sort_ascending_permutation _)).
      by apply history_countToUse_le. }
    split_and!.
    + rewrite Hbest. by apply history_countToUse.
    + exact Hsplit.
    + rewrite <- Hsplit. apply sort_ascending_permutation.
    + intros _. split; [rewrite <- Hsplit; apply Sorted_merge_sort; apply _|].
      intros x y Hx Hy.
      apply (StronglySorted_app_1_elem_of le best rest); [|done..].
      rewrite <- Hsplit. apply sort_ascending_sorted.
    + reflexivity.
    + unfold History.handicap. by rewrite decide_True by exact Hn'.
    + intros Hnan. unfold History.handicap. rewrite decide_True by exact Hn'.
      by apply clamp_range.
  - vm_compute. reflexivity.
  - vm_compute. reflexivity.
Qed.

Lemma history_handicap_algorithm_witness :
  History.handicapHistory
    [ {| History.played_date := "2024-01-01";
         History.played_scoreDifferential := dec 140625 100000 |};
      {| History.played_date := "2024-01-02";
         History.played_scoreDifferential := of_Z 5 |};
      {| History.played_date := "2024-01-03";
         History.played_scoreDifferential := of_Z 9 |} ] !! 2%nat
  = Some {| History.history_date := "2024-01-03";
            History.history_handicap :=
              History.entryHandicap [dec 140625 100000; of_Z 5; of_Z 9];
            History.history_scoreDifferential := of_Z 9 |}.
Proof.
  exact (proj1 (proj2
    (history_handicap_algorithm
       [ {| History.played_date := "2024-01-01";
            History.played_scoreDifferential := dec 140625 100000 |};
         {| History.played_date := "2024-01-02";
            History.played_scoreDifferential := of_Z 5 |};
         {| History.played_date := "2024-01-03";
            History.played_scoreDifferential := of_Z 9 |} ]
       2
       {| History.played_date := "2024-01-03";
          History.played_scoreDifferential := of_Z 9 |}
       eq_refl))).
Defined.

(** The product with 0.96 is a double: the lowest differential 1.40625
    gives 1.3499999999999999 and the entry 1.3, where the exact product
    1.35 would give 1.4. *)
Example history_of_product :
  History.handicap [dec 140625 100000; of_Z 5; of_Z 9]
  = dec 13499999999999999 10000000000000000
  ∧ History.entryHandicap [dec 140625 100000; of_Z 5; of_Z 9] = dec 13 10.
Proof. split; vm_compute; reflexivity. Qed.
